(** * Voxel backprojection (cryodrgn/commands/backproject_voxel.py)

    A shallow embedding of [add_slice], [regularize_volume] and of the
    accumulation and FSC orchestration of [main], with the properties the
    specification states about them.

    Tensor entries are real numbers: the statements are those of exact
    arithmetic, which is what "up to floating-point rounding" refers to.
    Integer quantities (grid size, corner indices) are in [Z].  The order
    in which the writes of an indexed assignment land, which torch leaves
    open, is an input of every insertion. *)

From Stdlib Require Import Reals Lra Lia ZArith List Bool Permutation Sorted.
From Stdlib Require Import FunctionalExtensionality Psatz.
Import ListNotations.

Open Scope R_scope.

(** ** Error monad

    Python exceptions (IndexError, TypeError) and non-finite results of a
    division by zero are the [None] of [option]. *)

Definition bind {A B : Type} (m : option A) (f : A -> option B) : option B :=
  match m with
  | Some a => f a
  | None => None
  end.

Notation "x <- m ;; k" := (bind m (fun x => k))
  (at level 61, m at next level, right associativity).

Fixpoint mapM {A B : Type} (f : A -> option B) (l : list A) : option (list B) :=
  match l with
  | [] => Some []
  | a :: l' => b <- f a ;; bs <- mapM f l' ;; Some (b :: bs)
  end.

(** ** Cubic tensors

    A [torch.Tensor] of shape (n, n, n): the side and the entries.  Entries
    are addressed as the code does, [t[(i0, i1, i2)]]. *)

Definition index : Type := (Z * Z * Z)%type.

Record tensor : Type := mk_tensor { side : Z; data : index -> R }.

Definition index_eqb (i j : index) : bool :=
  let '(a, b, c) := i in
  let '(a', b', c') := j in
  (a =? a')%Z && (b =? b')%Z && (c =? c')%Z.

(** [torch.zeros((D, D, D))] *)
Definition zeros (D : Z) : tensor := mk_tensor D (fun _ => 0).

(** Python indexing along one axis of size [n]: a negative index counts from
    the end, anything outside [-n, n) raises IndexError. *)
Definition norm_axis (n i : Z) : option Z :=
  if ((0 <=? i) && (i <? n))%Z then Some i
  else if ((- n <=? i) && (i <? 0))%Z then Some (i + n)%Z
  else None.

Definition norm_index (n : Z) (i : index) : option index :=
  let '(a, b, c) := i in
  a' <- norm_axis n a ;; b' <- norm_axis n b ;; c' <- norm_axis n c ;;
  Some (a', b', c').

Definition upd (f : index -> R) (i : index) (v : R) : index -> R :=
  fun j => if index_eqb i j then v else f j.

Definition scatter (f : index -> R) (ws : list (index * R)) : index -> R :=
  fold_left (fun g iw => upd g (fst iw) (snd iw)) ws f.

(** ** The order of the writes of one indexed assignment

    [index_put_] without accumulation leaves open which of the writes to
    one entry is kept, and the kept one can differ from one call to the
    next.  Every call therefore comes with a [write_order], which says in
    which order its writes land; the last write to an entry is the one
    kept.  The order is given by insertion positions, so that every
    [write_order] rearranges the writes and every rearrangement has a
    [write_order] (lemmas [reorder_perm] and [reorder_complete]); the empty
    one leaves the writes in the order of their positions. *)
Definition write_order : Type := list nat.

Fixpoint insert_at {A : Type} (n : nat) (a : A) (l : list A) : list A :=
  match n, l with
  | S n', b :: l' => b :: insert_at n' a l'
  | _, _ => a :: l
  end.

Fixpoint reorder {A : Type} (p : write_order) (l : list A) : list A :=
  match l with
  | [] => []
  | a :: l' => insert_at (hd 0%nat p) a (reorder (tl p) l')
  end.

(** [t[idx] += vals] with index tensors: Python evaluates
    [tmp = t[idx]] (a gathered copy), [tmp += vals], [t[idx] = tmp].
    The final assignment is [index_put_] without accumulation, so when two
    positions of [idx] name the same entry one write replaces the other
    instead of adding to it; the writes land in the order [p]. *)
Definition iadd_at (p : write_order) (t : tensor) (ups : list (index * R))
  : option tensor :=
  idx <- mapM (norm_index (side t)) (map fst ups) ;;
  let tmp := map (fun iv => data t (fst iv) + snd iv) (combine idx (map snd ups)) in
  Some (mk_tensor (side t) (scatter (data t) (reorder p (combine idx tmp)))).

(** ** add_slice *)

Record sample : Type := mk_sample {
  coord : R * R * R;   (* a row of ff_coord: (x, y, z) *)
  ff : R;              (* the pixel value *)
  ctf_mul : R          (* the CTF weight; the scalar 1 broadcasts to 1 *)
}.

(** An image slice: the N rows of [ff_coord] with [ff] and [ctf_mul]. *)
Definition slice : Type := list sample.

Inductive rounding : Type := Floor | Ceil.

Definition round (r : rounding) (x : R) : Z :=
  match r with
  | Floor => Zfloor x
  | Ceil => Zceil x
  end.

(** Which of (xf | xc, yf | yc, zf | zc) a call of [add_for_corner] gets. *)
Definition corner : Type := (rounding * rounding * rounding)%type.

(** The eight calls, in the order of the source. *)
Definition corners : list corner :=
  [ (Floor, Floor, Floor); (Ceil, Floor, Floor); (Floor, Ceil, Floor);
    (Floor, Floor, Ceil); (Ceil, Ceil, Floor); (Floor, Ceil, Ceil);
    (Ceil, Floor, Ceil); (Ceil, Ceil, Ceil) ].

(** The write orders of one [add_slice] call: for each of the eight calls
    of [add_for_corner], that of the assignment to [volume] and that of the
    assignment to [counts]. *)
Definition orders : Type := corner -> write_order * write_order.

(** All sixteen assignments in the order of the positions. *)
Definition in_order : orders := fun _ => ([], []).

Section AddSlice.

Variable D : Z.

(** [d2 = int(D / 2)]: true division, then truncation toward zero. *)
Definition d2 : Z := Z.quot D 2.

(** [Tensor.clip(-d2, d2)] is [min(max(x, -d2), d2)]. *)
Definition clip (x : R) : R := Rmin (Rmax x (IZR (- d2))) (IZR d2).

Definition clip_coord (c : R * R * R) : R * R * R :=
  let '(x, y, z) := c in (clip x, clip y, clip z).

Definition corner_of (k : corner) (c : R * R * R) : Z * Z * Z :=
  let '(rx, ry, rz) := k in
  let '(x, y, z) := c in (round rx x, round ry y, round rz z).

(** [dist.pow(2).sum(0).pow(0.5)] *)
Definition dist (p : Z * Z * Z) (c : R * R * R) : R :=
  let '(xi, yi, zi) := p in
  let '(x, y, z) := c in
  sqrt ((IZR xi - x) ^ 2 + (IZR yi - y) ^ 2 + (IZR zi - z) ^ 2).

(** [w = 1 - dist; w[w < 0] = 0] *)
Definition weight (p : Z * Z * Z) (c : R * R * R) : R :=
  let w := 1 - dist p c in
  if Rlt_dec w 0 then 0 else w.

(** The entry [(zi + d2, yi + d2, xi + d2)] a sample addresses. *)
Definition voxel (p : Z * Z * Z) : index :=
  let '(xi, yi, zi) := p in ((zi + d2)%Z, (yi + d2)%Z, (xi + d2)%Z).

Definition corner_point (k : corner) (s : sample) : Z * Z * Z :=
  corner_of k (clip_coord (coord s)).

Definition corner_weight (k : corner) (s : sample) : R :=
  weight (corner_point k s) (clip_coord (coord s)).

Definition corner_voxel (k : corner) (s : sample) : index :=
  voxel (corner_point k s).

(** [w * ff * ctf_mul] and [w * ctf_mul**2] *)
Definition volume_term (k : corner) (s : sample) : R :=
  corner_weight k s * ff s * ctf_mul s.

Definition counts_term (k : corner) (s : sample) : R :=
  corner_weight k s * ctf_mul s ^ 2.

Definition add_for_corner (o : orders) (sl : slice) (k : corner)
  (vc : tensor * tensor) : option (tensor * tensor) :=
  volume <- iadd_at (fst (o k)) (fst vc)
              (map (fun s => (corner_voxel k s, volume_term k s)) sl) ;;
  counts <- iadd_at (snd (o k)) (snd vc)
              (map (fun s => (corner_voxel k s, counts_term k s)) sl) ;;
  Some (volume, counts).

(** The grids are mutated in place; the new pair is returned here, or
    [None] when an index is out of range. *)
Definition add_slice (o : orders) (vc : tensor * tensor) (sl : slice)
  : option (tensor * tensor) :=
  fold_left (fun acc k => g <- acc ;; add_for_corner o sl k g) corners (Some vc).

(** Every entry index [add_slice] reads or writes for a slice. *)
Definition accessed (sl : slice) : list index :=
  flat_map (fun k => map (corner_voxel k) sl) corners.

End AddSlice.


(** Inserting a sequence of slices, one [add_slice] call after the other,
    each call with its write orders. *)
Definition insert_all (D : Z) (vc : tensor * tensor)
  (sls : list (orders * slice)) : option (tensor * tensor) :=
  fold_left (fun acc os => g <- acc ;; add_slice D (fst os) g (snd os))
            sls (Some vc).

(** Entrywise sum of two tensors, and of two (volume, counts) pairs. *)
Definition tplus (a b : tensor) : tensor :=
  mk_tensor (side a) (fun i => data a i + data b i).

Definition pair_plus (p q : tensor * tensor) : tensor * tensor :=
  (tplus (fst p) (fst q), tplus (snd p) (snd q)).

(** ** regularize_volume *)

(** A division whose result is finite: a zero divisor gives inf or nan in
    the tensor arithmetic, which is [None] here. *)
Definition checked_div (a b : R) : option R :=
  if Req_dec_T b 0 then None else Some (a / b).

Definition axis (n : Z) : list Z := map Z.of_nat (seq 0 (Z.to_nat n)).

(** All entries of a cube of side [n], in storage order. *)
Definition indices (n : Z) : list index :=
  flat_map (fun a => flat_map (fun b => map (fun c => (a, b, c)) (axis n)) (axis n))
           (axis n).

Definition in_cube (n : Z) (i : index) : bool :=
  let '(a, b, c) := i in
  ((0 <=? a) && (a <? n) && (0 <=? b) && (b <? n) && (0 <=? c) && (c <? n))%Z.

Definition rsum (l : list R) : R := fold_right Rplus 0 l.

Definition tsum (t : tensor) : R := rsum (map (data t) (indices (side t))).

(** [Tensor.mean()]: the sum over the number of entries (nan when empty). *)
Definition mean (t : tensor) : option R :=
  checked_div (tsum t) (INR (length (indices (side t)))).

Definition tmap (f : R -> R) (t : tensor) : tensor :=
  mk_tensor (side t) (fun i => f (data t i)).

Definition nonzero (x : R) : bool := if Req_dec_T x 0 then false else true.

(** [a / b] entrywise on two cubes of one side ([None] when the sides
    differ or when an entry of [b] is zero). *)
Definition tdiv (a b : tensor) : option tensor :=
  if negb (side a =? side b)%Z then None
  else if forallb (fun i => nonzero (data b i)) (indices (side b))
       then Some (mk_tensor (side a) (fun i => data a i / data b i))
       else None.

(** [t[0:-1, 0:-1, 0:-1]] *)
Definition trim (t : tensor) : tensor :=
  let n := Z.max 0 (side t - 1) in
  mk_tensor n (fun i => if in_cube n i then data t i else 0).

(** Lines 164-165: [counts + reg_weight * counts.mean()], then
    [*= counts.mean() / regularized_counts.mean()]. *)
Definition regularized_counts (counts : tensor) (reg_weight : R) : option tensor :=
  m <- mean counts ;;
  let rc := tmap (fun c => c + reg_weight * m) counts in
  m' <- mean rc ;;
  scale <- checked_div m m' ;;
  Some (tmap (fun c => c * scale) rc).

(** Line 166: [volume / regularized_counts]. *)
Definition reg_volume (volume counts : tensor) (reg_weight : R) : option tensor :=
  rc <- regularized_counts counts reg_weight ;;
  tdiv volume rc.

Section Regularize.

(** [fft.ihtn_center], the inverse centered Hartley transform, is not
    part of the sources at hand: it is a parameter. *)
Variable ihtn_center : tensor -> tensor.

Definition regularize_volume (volume counts : tensor) (reg_weight : R)
  : option tensor :=
  q <- reg_volume volume counts reg_weight ;;
  Some (ihtn_center (trim q)).

End Regularize.

(** [t[t == 0] = 1] *)
Definition floor_zeros (t : tensor) : tensor :=
  tmap (fun c => if Req_dec_T c 0 then 1 else c) t.

(** [s * t] *)
Definition tscale (s : R) (t : tensor) : tensor := tmap (fun c => s * c) t.

(** ** The accumulation loop of main *)

(** [enumerate(l)] *)
Definition enumerate {A : Type} (l : list A) : list (nat * A) :=
  combine (seq 0 (length l)) l.

Record streams : Type := mk_streams {
  full : tensor * tensor;    (* volume_full, counts_full *)
  half1 : tensor * tensor;   (* volume_half1, counts_half1 *)
  half2 : tensor * tensor    (* volume_half2, counts_half2 *)
}.

Section Main.

Variable D : Z.

(** What the loop body computes for image [ii] before insertion:
    [ff_coord], [ff] and [ctf_mul], from the dataset, the pose tracker,
    the CTF and the dose filter. *)
Variable slice_of : Z -> slice.

(** [args.half_maps] *)
Variable half_maps : bool.

(** The write orders of the [add_slice] calls of the round [i] of the loop:
    those of the insertion into the full stream and those of the insertion
    into a half stream. *)
Variable os : nat -> orders * orders.

Definition init : streams :=
  mk_streams (zeros D, zeros D) (zeros D, zeros D) (zeros D, zeros D).

(** The body of [for i, ii in enumerate(iterator)]. *)
Definition step (st : streams) (i : nat) (ii : Z) : option streams :=
  let sl := slice_of ii in
  f <- add_slice D (fst (os i)) (full st) sl ;;
  if half_maps then
    if (ii mod 2 =? 0)%Z then
      h1 <- add_slice D (snd (os i)) (half1 st) sl ;;
      Some (mk_streams f h1 (half2 st))
    else
      h2 <- add_slice D (snd (os i)) (half2 st) sl ;;
      Some (mk_streams f (half1 st) h2)
  else Some (mk_streams f (half1 st) (half2 st)).

Definition accumulate (iterator : list Z) : option streams :=
  fold_left (fun acc p => st <- acc ;; step st (fst p) (snd p))
            (enumerate iterator) (Some init).

Variable ihtn_center : tensor -> tensor.
Variable reg_weight : R.

Definition finish_pair (vc : tensor * tensor) : option tensor :=
  regularize_volume ihtn_center (fst vc) (floor_zeros (snd vc)) reg_weight.

(** Lines 309-324: floor the three count grids, regularize the full map
    and, with half-maps, the two halves. *)
Definition reconstruct (iterator : list Z)
  : option (tensor * option (tensor * tensor)) :=
  st <- accumulate iterator ;;
  volume_full <- finish_pair (full st) ;;
  if half_maps then
    volume_half1 <- finish_pair (half1 st) ;;
    volume_half2 <- finish_pair (half2 st) ;;
    Some (volume_full, Some (volume_half1, volume_half2))
  else Some (volume_full, None).

End Main.

(** ** The FSC orchestration of main *)

Inductive mask_label : Type := NoMask | Spherical | Loose | Tight | Corrected.

Definition label_eqb (a b : mask_label) : bool :=
  match a, b with
  | NoMask, NoMask | Spherical, Spherical | Loose, Loose
  | Tight, Tight | Corrected, Corrected => true
  | _, _ => false
  end.

(** A dict keyed by mask label, in insertion order. *)
Definition dict (A : Type) : Type := list (mask_label * A).

Fixpoint lookup {A : Type} (k : mask_label) (d : dict A) : option A :=
  match d with
  | [] => None
  | (k', a) :: d' => if label_eqb k k' then Some a else lookup k d'
  end.

(** [(1 / fsc_val) * Apix]: [fsc_val] may be None, and [1 / None] raises
    TypeError; a zero threshold has no finite resolution. *)
Definition to_angstrom (Apix : R) (fsc_val : option R) : option R :=
  t <- fsc_val ;; r <- checked_div 1 t ;; Some (r * Apix).

Definition fsc_angs (Apix : R) (fsc_thresh : dict (option R)) : option (dict R) :=
  mapM (fun lv => a <- to_angstrom Apix (snd lv) ;; Some (fst lv, a)) fsc_thresh.

Section GoldStandard.

(** The curve and mask types, [calculate_fsc], the 0.143 threshold of
    [get_fsc_thresholds] and the three masks come from modules that are
    not part of the sources at hand: they are parameters. *)
Variables curve mask : Type.
Variable calculate_fsc : tensor -> tensor -> option mask -> option R -> curve.
Variable get_fsc_threshold : curve -> R -> option R.
Variables spherical loose tight : mask.

Variable Apix : R.
Variables volume_half1 volume_half2 : tensor.

Definition masks : dict (option mask) :=
  [ (NoMask, None); (Spherical, Some spherical);
    (Loose, Some loose); (Tight, Some tight) ].

Definition fsc_vals0 : dict curve :=
  map (fun lm => (fst lm, calculate_fsc volume_half1 volume_half2 (snd lm) None))
      masks.

Definition fsc_thresh0 : dict (option R) :=
  map (fun lc => (fst lc, get_fsc_threshold (snd lc) Apix)) fsc_vals0.

(** Lines 346-358: the two dicts after the "Corrected" entry is set.
    A missing key raises KeyError. *)
Definition with_corrected : option (dict curve * dict (option R)) :=
  tight_thresh <- lookup Tight fsc_thresh0 ;;
  match tight_thresh with
  | Some t =>
      let c := calculate_fsc volume_half1 volume_half2 (Some tight)
                             (Some (0.75 * t)) in
      Some (fsc_vals0 ++ [(Corrected, c)],
            fsc_thresh0 ++ [(Corrected, get_fsc_threshold c Apix)])
  | None =>
      tight_curve <- lookup Tight fsc_vals0 ;;
      Some (fsc_vals0 ++ [(Corrected, tight_curve)],
            fsc_thresh0 ++ [(Corrected, tight_thresh)])
  end.

(** Lines 346-362: the curves, their thresholds and their resolutions. *)
Definition gold_standard : option (dict curve * dict (option R) * dict R) :=
  vt <- with_corrected ;;
  angs <- fsc_angs Apix (snd vt) ;;
  Some (fst vt, snd vt, angs).

End GoldStandard.

(** Modelled from the spec: the threshold of a curve that crosses the cutoff
    at shell [bin], on a grid of size [D], is the spatial frequency
    "threshold_bin / grid_size" in cycles per pixel.  [get_fsc_thresholds],
    which produces the value [main] converts, is not part of the sources at
    hand. *)
Definition bin_frequency (bin D : R) : R := bin / D.

(** The corner point as a real coordinate. *)
Definition to_R3 (p : Z * Z * Z) : R * R * R :=
  let '(xi, yi, zi) := p in (IZR xi, IZR yi, IZR zi).

(** ** Increments

    What an insertion adds to a grid, separated from the grid it is added
    to: a function of the entry index for one tensor, a pair of them for a
    (volume, counts) pair.  [None] stands for an insertion that raises. *)

Definition zero_fn : index -> R := fun _ => 0.

Definition tadd (t : tensor) (d : index -> R) : tensor :=
  mk_tensor (side t) (fun i => data t i + d i).

Definition delta : Type := ((index -> R) * (index -> R))%type.

Definition dzero : delta := (zero_fn, zero_fn).

Definition dplus (a b : delta) : delta :=
  (fun i => fst a i + fst b i, fun i => snd a i + snd b i).

Definition oplus (a b : option delta) : option delta :=
  x <- a ;; y <- b ;; Some (dplus x y).

Definition osum (l : list (option delta)) : option delta :=
  fold_right oplus (Some dzero) l.

Definition act (vc : tensor * tensor) (d : delta) : tensor * tensor :=
  (tadd (fst vc) (fst d), tadd (snd vc) (snd d)).

(** The increment of one indexed [+=] on a tensor of side [n]: at each
    entry, the term of the sample whose write to it lands last. *)
Definition put_delta (p : write_order) (n : Z) (vox : sample -> index)
  (term : sample -> R) (sl : slice) : option (index -> R) :=
  idx <- mapM (norm_index n) (map vox sl) ;;
  Some (scatter zero_fn (reorder p (combine idx (map term sl)))).

Definition call_delta (D nv nc : Z) (o : orders) (sl : slice) (k : corner)
  : option delta :=
  dv <- put_delta (fst (o k)) nv (corner_voxel D k) (volume_term D k) sl ;;
  dc <- put_delta (snd (o k)) nc (corner_voxel D k) (counts_term D k) sl ;;
  Some (dv, dc).

Definition slice_delta (D nv nc : Z) (o : orders) (sl : slice) : option delta :=
  osum (map (call_delta D nv nc o sl) corners).

Definition total_delta (D nv nc : Z) (sls : list (orders * slice))
  : option delta :=
  osum (map (fun os => slice_delta D nv nc (fst os) (snd os)) sls).

(** For an odd grid size, the increment of a slice: per entry, the sum over
    the eight calls of the term of the sample whose write lands last, for
    the write order [ord k] of the call [k]. *)
Definition slice_sum (D : Z) (ord : corner -> write_order)
  (term : corner -> sample -> R) (sl : slice) (i : index) : R :=
  rsum (map (fun k => scatter zero_fn
                        (map (fun a => (corner_voxel D k a, term k a))
                             (reorder (ord k) sl)) i)
            corners).

(** No two samples of the slice address the same entry in the same call of
    [add_for_corner]. *)
Definition collision_free (D : Z) (sl : slice) : Prop :=
  forall k : corner, NoDup (map (corner_voxel D k) sl).

(** A coordinate with a component at or above the upper bound of the
    clipping. *)
Definition reaches_upper_bound (D : Z) (c : R * R * R) : Prop :=
  let '(x, y, z) := c in
  IZR (d2 D) <= x \/ IZR (d2 D) <= y \/ IZR (d2 D) <= z.

(** The sample moved to its clipped coordinate. *)
Definition clip_sample (D : Z) (s : sample) : sample :=
  mk_sample (clip_coord D (coord s)) (ff s) (ctf_mul s).

(** A pair of a volume entry and a counts entry as accumulation leaves
    them: the count is not negative, and the value is zero where the count
    is. *)
Definition weighted (v c : R) : Prop := 0 <= c /\ (c = 0 -> v = 0).

Definition weighted_delta (d : delta) : Prop :=
  forall i, weighted (fst d i) (snd d i).

(** A sample on the lattice point (x, y, z), of value [v] and CTF weight
    [c]. *)
Definition lattice_sample (x y z : Z) (v c : R) : sample :=
  mk_sample (IZR x, IZR y, IZR z) v c.

(** A dataset in which every image has one sample, on the origin and of
    value 1; the CTF weight is 3/2 for image 0, 1 for image 1 and 1/2 for
    the others. *)
Definition origin_slices : Z -> slice :=
  fun ii => [lattice_sample 0 0 0 1
               (if (ii =? 0)%Z then 3 / 2 else if (ii =? 1)%Z then 1 else 1 / 2)].

(** What one such image adds to grids of side 3. *)
Definition origin_delta (c : R) : delta :=
  (slice_sum 3 (fun _ => []) (volume_term 3) [lattice_sample 0 0 0 1 c],
   slice_sum 3 (fun _ => []) (counts_term 3) [lattice_sample 0 0 0 1 c]).

(** The streams after images 0, 1 and 2, without half-maps. *)
Definition origin_streams : streams :=
  mk_streams
    (act (act (act (zeros 3, zeros 3) (origin_delta (3 / 2))) (origin_delta 1))
         (origin_delta (1 / 2)))
    (zeros 3, zeros 3) (zeros 3, zeros 3).

(** Two samples of one slice on the lattice point (0, 0, 0), of values 1
    and 2 and CTF weight 1. *)
Definition colliding_slice : slice :=
  [lattice_sample 0 0 0 1 1; lattice_sample 0 0 0 2 1].

(** Write orders in which the write of the first position lands last, in
    each of the sixteen assignments. *)
Definition first_last : orders := fun _ => ([1%nat], [1%nat]).



(** ** Coinciding corners *)

(** Floor and ceil of a real coincide exactly when it is an integer. *)
Definition integral (x : R) : bool := (Zfloor x =? Zceil x)%Z.

(** On how many of the three axes the clipped coordinate is an integer. *)
Definition integer_axes (D : Z) (s : sample) : nat :=
  let '(x, y, z) := clip_coord D (coord s) in
  ((if integral x then 1 else 0) + (if integral y then 1 else 0)
   + (if integral z then 1 else 0))%nat.

(** The entries the eight calls address for one sample. *)
Definition sample_voxels (D : Z) (s : sample) : list index :=
  map (fun k => corner_voxel D k s) corners.

Fixpoint dedup (l : list index) : list index :=
  match l with
  | [] => []
  | i :: l' => if existsb (index_eqb i) l' then dedup l' else i :: dedup l'
  end.

Definition count_voxel (i : index) (l : list index) : nat :=
  length (filter (index_eqb i) l).

(** The images of even and of odd index. *)
Definition evens (l : list Z) : list Z := filter (fun ii => (ii mod 2 =? 0)%Z) l.
Definition odds (l : list Z) : list Z :=
  filter (fun ii => negb (ii mod 2 =? 0)%Z) l.

(** The rounds [(i, ii)] of the loop whose image index is even, and odd. *)
Definition even_rounds (l : list (nat * Z)) : list (nat * Z) :=
  filter (fun p => (snd p mod 2 =? 0)%Z) l.
Definition odd_rounds (l : list (nat * Z)) : list (nat * Z) :=
  filter (fun p => negb (snd p mod 2 =? 0)%Z) l.

(** The [add_slice] call of the round [(i, ii)] on the full stream and on a
    half stream: its write orders and its slice. *)
Definition call_full (slice_of : Z -> slice) (os : nat -> orders * orders)
  (p : nat * Z) : orders * slice :=
  (fst (os (fst p)), slice_of (snd p)).
Definition call_half (slice_of : Z -> slice) (os : nat -> orders * orders)
  (p : nat * Z) : orders * slice :=
  (snd (os (fst p)), slice_of (snd p)).

(** ** The images main iterates over *)

(** [range(n)] *)
Definition range (n : Z) : list Z := map Z.of_nat (seq 0 (Z.to_nat n)).

(** [range(min(args.first, Nimg)) if args.first else range(Nimg)]:
    [args.first] is None when the option is absent, and None and 0 are both
    false. *)
Definition first_images (first : option Z) (Nimg : Z) : list Z :=
  match first with
  | Some n => if (n =? 0)%Z then range Nimg else range (Z.min n Nimg)
  | None => range Nimg
  end.

(** Lines 248-252: with [args.tilt], the images are kept whose tilt number
    is in [set(range(args.ntilts))]. *)
Definition image_iterator (first : option Z) (Nimg : Z) (tilt : bool)
  (ntilts : Z) (tilt_numbers : Z -> Z) : list Z :=
  let iterator := first_images first Nimg in
  if tilt
  then filter (fun ii => (0 <=? tilt_numbers ii)%Z && (tilt_numbers ii <? ntilts)%Z)
              iterator
  else iterator.

(** The keys of the FSC dicts once the corrected entry is set. *)
Definition fsc_labels : list mask_label :=
  [NoMask; Spherical; Loose; Tight; Corrected].

(** * cryodrgn/commands/bnb_het.py *)

Module BnbHet.

(** ** The KL term of [train] *)

(** One entry of [1 + z_logvar - z_mu.pow(2) - z_logvar.exp()]. *)
Definition kld_term (mu logvar : R) : R := 1 + logvar - mu ^ 2 - exp logvar.

(** [-0.5 * torch.mean(...)] over the entries of [z_mu] and [z_logvar], two
    tensors of one shape, given entry by entry; the mean of an empty tensor
    is nan, for which [train] raises RuntimeError. *)
Definition kld (z : list (R * R)) : option R :=
  m <- checked_div (rsum (map (fun p => kld_term (fst p) (snd p)) z))
                   (INR (length z)) ;;
  Some (- 0.5 * m).

(** Lines 201-204: [gen_loss + beta*kld/mask.sum()] when the parameter
    [beta_control] is None, and otherwise
    [gen_loss + args.beta_control*(beta-kld)**2/mask.sum()], whose weight is
    not the parameter but the attribute of the module-level name [args].
    That name is bound only when the file runs as a script:
    [args_beta_control] is [None] when it is not bound (NameError),
    [Some None] when the attribute is None (TypeError) and [Some (Some w)]
    for a weight [w]. *)
Definition loss (args_beta_control : option (option R))
  (gen_loss beta k mask_sum : R) (beta_control : option R) : option R :=
  match beta_control with
  | None => Some (gen_loss + beta * k / mask_sum)
  | Some _ =>
      match args_beta_control with
      | Some (Some w) => Some (gen_loss + w * (beta - k) ^ 2 / mask_sum)
      | _ => None
      end
  end.

(** ** The resolution ramp of [main] *)

(** [int(x)] of a float: truncation toward zero. *)
Definition trunc (x : R) : Z := if Rlt_dec x 0 then Zceil x else Zfloor x.

(** [args.l_start + int(epoch / args.l_ramp_epochs * (args.l_end - args.l_start))] *)
Definition Lramp (l_start l_end l_ramp_epochs epoch : Z) : Z :=
  (l_start
   + trunc (IZR epoch / IZR l_ramp_epochs * IZR (l_end - l_start)))%Z.

(** [ps.Lmin = min(Lramp, args.l_start)] and [ps.Lmax = min(Lramp, args.l_end)] *)
Definition Lmin (l_start l_end l_ramp_epochs epoch : Z) : Z :=
  Z.min (Lramp l_start l_end l_ramp_epochs epoch) l_start.

Definition Lmax (l_start l_end l_ramp_epochs epoch : Z) : Z :=
  Z.min (Lramp l_start l_end l_ramp_epochs epoch) l_end.

(** ** The pretraining loop of [main]

    [sizes] are the values of [len(batch[0])] over one pass of the data
    loader; the loop is
    [while global_it < pretrain: for batch in ...: global_it += len(batch[0]);
     ...; if global_it > pretrain: break]. *)

Fixpoint one_pass (pretrain : Z) (sizes : list Z) (global_it : Z) : Z :=
  match sizes with
  | [] => global_it
  | b :: rest =>
      let global_it := (global_it + b)%Z in
      if (pretrain <? global_it)%Z then global_it
      else one_pass pretrain rest global_it
  end.

(** The value of [global_it] when the while loop ends; [None] when the fuel
    runs out first. *)
Fixpoint pretrain_loop (fuel : nat) (pretrain : Z) (sizes : list Z)
  (global_it : Z) : option Z :=
  match fuel with
  | O => None
  | S fuel' =>
      if (global_it <? pretrain)%Z
      then pretrain_loop fuel' pretrain sizes (one_pass pretrain sizes global_it)
      else Some global_it
  end.

(** ** sort_poses *)

(** [np.argsort(ind)]: the positions of [ind] in the order of their
    values.  numpy's default sort leaves the order of equal values open;
    the sort used here keeps them in their order. *)
Fixpoint insert_by_key (p : Z * nat) (l : list (Z * nat)) : list (Z * nat) :=
  match l with
  | [] => [p]
  | q :: l' =>
      if (fst p <=? fst q)%Z then p :: q :: l' else q :: insert_by_key p l'
  end.

Definition sort_by_key (l : list (Z * nat)) : list (Z * nat) :=
  fold_right insert_by_key [] l.

Definition argsort (ind : list Z) : list nat :=
  map snd (sort_by_key (combine ind (seq 0 (length ind)))).

(** [a[idx]] with an array of positions: IndexError when one is out of
    range. *)
Definition take {A : Type} (a : list A) (idx : list nat) : option (list A) :=
  mapM (nth_error a) idx.

Section SortPoses.

(** A row of a rotation array and a row of a translation array. *)
Variables Rot Trans : Type.

(** An entry [(ind, pose)] of [poses]: the image indices of a batch and its
    pose, the list [[rot]] or [[rot, trans]]. *)
Record batch_pose : Type := mk_batch_pose {
  bp_ind : list Z;
  bp_rot : list Rot;
  bp_trans : option (list Trans)
}.

(** [np.concatenate] of an empty list raises ValueError, and [x[1][1]] of a
    pose without translations IndexError. *)
Definition sort_poses (poses : list batch_pose)
  : option (list Rot * option (list Trans)) :=
  match poses with
  | [] => None
  | p0 :: _ =>
      let ind := concat (map bp_ind poses) in
      let rot := concat (map bp_rot poses) in
      rot <- take rot (argsort ind) ;;
      match bp_trans p0 with
      | Some _ =>
          trans <- mapM bp_trans poses ;;
          trans <- take (concat trans) (argsort ind) ;;
          Some (rot, Some trans)
      | None => Some (rot, None)
      end
  end.

End SortPoses.

End BnbHet.

(** * Properties *)

(** ** The splat weight *)

Lemma sq_sum_nonneg (a b c : R) : 0 <= a ^ 2 + b ^ 2 + c ^ 2.
Proof.
  pose proof (pow2_ge_0 a). pose proof (pow2_ge_0 b). pose proof (pow2_ge_0 c).
  lra.
Qed.

Lemma sq_sum_zero (a b c : R) :
  a ^ 2 + b ^ 2 + c ^ 2 = 0 -> a = 0 /\ b = 0 /\ c = 0.
Proof.
  intros H.
  pose proof (pow2_ge_0 a) as Ha. pose proof (pow2_ge_0 b) as Hb.
  pose proof (pow2_ge_0 c) as Hc.
  assert (Ha0 : a * a = 0) by lra.
  assert (Hb0 : b * b = 0) by lra.
  assert (Hc0 : c * c = 0) by lra.
  apply Rmult_integral in Ha0, Hb0, Hc0. intuition.
Qed.

Lemma dist_nonneg (p : Z * Z * Z) (c : R * R * R) : 0 <= dist p c.
Proof.
  destruct p as [[xi yi] zi], c as [[x y] z]. unfold dist. apply sqrt_pos.
Qed.


Lemma weight_range (p : Z * Z * Z) (c : R * R * R) : 0 <= weight p c <= 1.
Proof.
  pose proof (dist_nonneg p c) as Hd. unfold weight. cbv zeta.
  destruct (Rlt_dec (1 - dist p c) 0); lra.
Qed.

Lemma dist_zero_iff (p : Z * Z * Z) (c : R * R * R) :
  dist p c = 0 <-> c = to_R3 p.
Proof.
  destruct p as [[xi yi] zi], c as [[x y] z]. unfold dist, to_R3. split.
  - intros H.
    assert (Hs : (IZR xi - x) ^ 2 + (IZR yi - y) ^ 2 + (IZR zi - z) ^ 2 = 0)
      by (apply sqrt_eq_0; [apply sq_sum_nonneg | exact H]).
    destruct (sq_sum_zero _ _ _ Hs) as (Hx & Hy & Hz).
    f_equal; [f_equal |]; lra.
  - intros H. inversion H; subst.
    replace ((IZR xi - IZR xi) ^ 2 + (IZR yi - IZR yi) ^ 2 + (IZR zi - IZR zi) ^ 2)
      with 0 by ring.
    apply sqrt_0.
Qed.

Lemma weight_one_iff (p : Z * Z * Z) (c : R * R * R) :
  weight p c = 1 <-> c = to_R3 p.
Proof.
  rewrite <- dist_zero_iff. pose proof (dist_nonneg p c) as Hd.
  unfold weight. cbv zeta.
  destruct (Rlt_dec (1 - dist p c) 0); split; intros; lra.
Qed.



(** ** The error monad and increments *)

Arguments oplus : simpl never.

Lemma mapM_none {A B : Type} (f : A -> option B) (l : list A) (a : A) :
  In a l -> f a = None -> mapM f l = None.
Proof.
  induction l as [| x l IH]; intros Hin Hf; [contradiction |].
  cbn [mapM]. destruct Hin as [-> | Hin].
  - now rewrite Hf.
  - destruct (f x); cbn [bind]; auto. now rewrite IH.
Qed.

Lemma fold_left_none {A B : Type} (f : A -> B -> option A) (l : list B) :
  fold_left (fun acc b => a <- acc ;; f a b) l None = None.
Proof. induction l as [| b l IH]; simpl; auto. Qed.

Lemma tadd_zero (t : tensor) : tadd t zero_fn = t.
Proof.
  destruct t as [n f]. unfold tadd, zero_fn. simpl. f_equal.
  extensionality i. ring.
Qed.

Lemma tadd_tadd (t : tensor) (a b : index -> R) :
  tadd (tadd t a) b = tadd t (fun i => a i + b i).
Proof.
  unfold tadd. simpl. f_equal. extensionality i. ring.
Qed.

Lemma act_zero (vc : tensor * tensor) : act vc dzero = vc.
Proof.
  destruct vc as [v c]. unfold act, dzero. simpl. now rewrite !tadd_zero.
Qed.

Lemma act_act (vc : tensor * tensor) (a b : delta) :
  act (act vc a) b = act vc (dplus a b).
Proof.
  unfold act, dplus. simpl. now rewrite !tadd_tadd.
Qed.

Lemma dplus_comm (a b : delta) : dplus a b = dplus b a.
Proof.
  unfold dplus. f_equal; extensionality i; ring.
Qed.

Lemma dplus_assoc (a b c : delta) : dplus a (dplus b c) = dplus (dplus a b) c.
Proof.
  unfold dplus. simpl. f_equal; extensionality i; ring.
Qed.

Lemma dplus_zero_l (a : delta) : dplus dzero a = a.
Proof.
  destruct a as [x y]. unfold dplus, dzero, zero_fn. simpl.
  f_equal; extensionality i; ring.
Qed.

Lemma dplus_zero_r (a : delta) : dplus a dzero = a.
Proof. rewrite dplus_comm. apply dplus_zero_l. Qed.

Lemma oplus_comm (a b : option delta) : oplus a b = oplus b a.
Proof.
  unfold oplus. destruct a, b; simpl; auto. now rewrite dplus_comm.
Qed.

Lemma oplus_assoc (a b c : option delta) :
  oplus a (oplus b c) = oplus (oplus a b) c.
Proof.
  unfold oplus. destruct a, b, c; simpl; auto. now rewrite dplus_assoc.
Qed.

Lemma oplus_zero_l (a : option delta) : oplus (Some dzero) a = a.
Proof. unfold oplus. destruct a; simpl; auto. now rewrite dplus_zero_l. Qed.

Lemma oplus_zero_r (a : option delta) : oplus a (Some dzero) = a.
Proof. rewrite oplus_comm. apply oplus_zero_l. Qed.

Lemma osum_app (l1 l2 : list (option delta)) :
  osum (l1 ++ l2) = oplus (osum l1) (osum l2).
Proof.
  induction l1 as [| a l1 IH]; simpl.
  - now rewrite oplus_zero_l.
  - now rewrite IH, oplus_assoc.
Qed.

Lemma osum_perm (l1 l2 : list (option delta)) :
  Permutation l1 l2 -> osum l1 = osum l2.
Proof.
  induction 1 as [| a l1 l2 _ IH | a b l | l1 l2 l3 _ IH1 _ IH2]; simpl.
  - reflexivity.
  - now rewrite IH.
  - rewrite !oplus_assoc. f_equal. apply oplus_comm.
  - now rewrite IH1.
Qed.

(** A fold of steps that each add an increment adds the sum of them. *)
Lemma fold_act {K : Type} (G : K -> option delta)
  (F : K -> tensor * tensor -> option (tensor * tensor)) (vc : tensor * tensor) :
  (forall k d, F k (act vc d) = x <- G k ;; Some (act vc (dplus d x))) ->
  forall (ks : list K) (od : option delta),
    fold_left (fun acc k => g <- acc ;; F k g) ks (d <- od ;; Some (act vc d))
    = d <- oplus od (osum (map G ks)) ;; Some (act vc d).
Proof.
  intros HF ks. induction ks as [| k ks IH]; intros od; simpl.
  - now rewrite oplus_zero_r.
  - destruct od as [d |]; simpl.
    + rewrite HF. specialize (IH (oplus (Some d) (G k))).
      rewrite oplus_assoc, <- IH. f_equal.
      unfold oplus. destruct (G k) as [x |]; reflexivity.
    + apply fold_left_none.
Qed.

(** ** Write orders *)

Lemma insert_at_perm {A : Type} (n : nat) (a : A) (l : list A) :
  Permutation (insert_at n a l) (a :: l).
Proof.
  revert n. induction l as [| b l IH]; intros [| n]; cbn [insert_at];
    try reflexivity.
  eapply perm_trans; [apply perm_skip, IH | apply perm_swap].
Qed.

(** Every write order rearranges the writes ... *)
Lemma reorder_perm {A : Type} (p : write_order) (l : list A) :
  Permutation (reorder p l) l.
Proof.
  revert p. induction l as [| a l IH]; intros p; cbn [reorder].
  - constructor.
  - eapply perm_trans; [apply insert_at_perm | apply perm_skip, IH].
Qed.

Lemma insert_at_middle {A : Type} (l1 l2 : list A) (a : A) :
  insert_at (length l1) a (l1 ++ l2) = l1 ++ a :: l2.
Proof.
  induction l1 as [| b l1 IH]; cbn [length app insert_at].
  - now destruct l2.
  - now rewrite IH.
Qed.

(** ... and every rearrangement is that of a write order. *)
Lemma reorder_complete {A : Type} (l l' : list A) :
  Permutation l l' -> exists p, reorder p l = l'.
Proof.
  revert l'. induction l as [| a l IH]; intros l' Hp.
  - apply Permutation_nil in Hp. subst l'. now exists [].
  - assert (Hin : In a l')
      by (eapply Permutation_in; [exact Hp | now left]).
    apply in_split in Hin. destruct Hin as (l1 & l2 & ->).
    apply Permutation_cons_app_inv in Hp.
    destruct (IH _ Hp) as [p Hr].
    exists (length l1 :: p). cbn [reorder hd tl]. rewrite Hr.
    apply insert_at_middle.
Qed.

Lemma in_reorder {A : Type} (p : write_order) (l : list A) (a : A) :
  In a (reorder p l) <-> In a l.
Proof.
  split; apply Permutation_in;
    [apply reorder_perm | apply Permutation_sym, reorder_perm].
Qed.

Lemma insert_at_map {A B : Type} (f : A -> B) (n : nat) (a : A) (l : list A) :
  insert_at n (f a) (map f l) = map f (insert_at n a l).
Proof.
  revert n. induction l as [| b l IH]; intros [| n]; cbn [insert_at map];
    try reflexivity.
  now rewrite IH.
Qed.

Lemma reorder_map {A B : Type} (f : A -> B) (p : write_order) (l : list A) :
  reorder p (map f l) = map f (reorder p l).
Proof.
  revert p. induction l as [| a l IH]; intros p; cbn [reorder map].
  - reflexivity.
  - now rewrite IH, insert_at_map.
Qed.

Lemma reorder_in_order {A : Type} (l : list A) : reorder [] l = l.
Proof.
  induction l as [| a l IH]; cbn [reorder hd tl insert_at]; [reflexivity |].
  now rewrite IH.
Qed.

Lemma reorder_single {A : Type} (p : write_order) (a : A) :
  reorder p [a] = [a].
Proof. cbn [reorder]. now destruct (hd 0%nat p). Qed.

(** ** Indexed in-place addition *)

Lemma combine_map_snd {A B C : Type} (F : A * B -> C) (l : list A) (m : list B) :
  combine l (map F (combine l m)) = map (fun p => (fst p, F p)) (combine l m).
Proof.
  revert m. induction l as [| a l IH]; intros [| b m]; simpl; auto.
  now rewrite IH.
Qed.

Lemma scatter_gather (f : index -> R) (l : list (index * R)) :
  forall (g h : index -> R),
    (forall i, g i = f i + h i) ->
    forall i, scatter g (map (fun p => (fst p, f (fst p) + snd p)) l) i
              = f i + scatter h l i.
Proof.
  unfold scatter. induction l as [| [j v] l IH]; intros g h Hgh i; simpl.
  - apply Hgh.
  - apply IH. intros i'. unfold upd. simpl.
    destruct (index_eqb j i') eqn:E; [| apply Hgh].
    destruct j as [[a b] c], i' as [[a' b'] c']. simpl in E.
    apply andb_prop in E as [E Ec]. apply andb_prop in E as [Ea Eb].
    apply Z.eqb_eq in Ea, Eb, Ec. now subst.
Qed.

Lemma iadd_at_delta (p : write_order) (t : tensor) (vox : sample -> index)
  (term : sample -> R) (sl : slice) :
  iadd_at p t (map (fun s => (vox s, term s)) sl)
  = d <- put_delta p (side t) vox term sl ;; Some (tadd t d).
Proof.
  unfold iadd_at, put_delta. rewrite !map_map. simpl.
  destruct (mapM (norm_index (side t)) (map vox sl)) as [idx |]; simpl; auto.
  f_equal. unfold tadd. f_equal. extensionality i.
  rewrite combine_map_snd, reorder_map.
  apply scatter_gather. intros j. unfold zero_fn. ring.
Qed.

Lemma add_for_corner_delta (D : Z) (o : orders) (sl : slice) (k : corner)
  (vc : tensor * tensor) :
  add_for_corner D o sl k vc
  = d <- call_delta D (side (fst vc)) (side (snd vc)) o sl k ;;
    Some (act vc d).
Proof.
  unfold add_for_corner, call_delta. rewrite !iadd_at_delta.
  destruct (put_delta _ _ _ (volume_term D k) sl); simpl; auto.
  destruct (put_delta _ _ _ (counts_term D k) sl); simpl; auto.
Qed.

Lemma add_slice_delta (D : Z) (o : orders) (vc : tensor * tensor) (sl : slice) :
  add_slice D o vc sl
  = d <- slice_delta D (side (fst vc)) (side (snd vc)) o sl ;;
    Some (act vc d).
Proof.
  unfold add_slice, slice_delta.
  assert (HF : forall k d,
             add_for_corner D o sl k (act vc d)
             = x <- call_delta D (side (fst vc)) (side (snd vc)) o sl k ;;
               Some (act vc (dplus d x))).
  { intros k d. rewrite add_for_corner_delta. simpl.
    destruct (call_delta D (side (fst vc)) (side (snd vc)) o sl k); simpl; auto.
    now rewrite act_act. }
  replace (Some vc) with (d <- Some dzero ;; Some (act vc d))
    by (simpl; now rewrite act_zero).
  rewrite (fold_act _ _ vc HF). now rewrite oplus_zero_l.
Qed.

Lemma insert_all_delta (D : Z) (vc : tensor * tensor)
  (sls : list (orders * slice)) :
  insert_all D vc sls
  = d <- total_delta D (side (fst vc)) (side (snd vc)) sls ;; Some (act vc d).
Proof.
  unfold insert_all, total_delta.
  assert (HF : forall (os : orders * slice) d,
             add_slice D (fst os) (act vc d) (snd os)
             = x <- slice_delta D (side (fst vc)) (side (snd vc))
                      (fst os) (snd os) ;;
               Some (act vc (dplus d x))).
  { intros os d. rewrite add_slice_delta. simpl.
    destruct (slice_delta D (side (fst vc)) (side (snd vc)) (fst os) (snd os));
      simpl; auto.
    now rewrite act_act. }
  replace (Some vc) with (d <- Some dzero ;; Some (act vc d))
    by (simpl; now rewrite act_zero).
  rewrite (fold_act _ (fun os g => add_slice D (fst os) g (snd os)) vc HF).
  now rewrite oplus_zero_l.
Qed.

Lemma total_delta_app (D nv nc : Z) (a b : list (orders * slice)) :
  total_delta D nv nc (a ++ b)
  = oplus (total_delta D nv nc a) (total_delta D nv nc b).
Proof. unfold total_delta. now rewrite map_app, osum_app. Qed.

Lemma act_zeros_plus (n : Z) (x y : delta) :
  act (zeros n, zeros n) (dplus x y)
  = pair_plus (act (zeros n, zeros n) x) (act (zeros n, zeros n) y).
Proof.
  unfold act, pair_plus, tplus, tadd, dplus. simpl.
  f_equal; f_equal; extensionality i; ring.
Qed.

(** ** The three streams of the accumulation loop *)

Ltac split_folds :=
  repeat match goal with
         | |- context [bind (fold_left ?f ?l (Some ?a)) _] =>
             destruct (fold_left f l (Some a)); cbn [bind]
         end;
  auto.

Lemma insert_all_cons (D : Z) (vc : tensor * tensor) (x : orders * slice)
  (l : list (orders * slice)) :
  insert_all D vc (x :: l)
  = g <- add_slice D (fst x) vc (snd x) ;; insert_all D g l.
Proof.
  unfold insert_all. cbn [fold_left bind].
  destruct (add_slice D (fst x) vc (snd x)); cbn [bind];
    [reflexivity | apply fold_left_none].
Qed.

Lemma accumulate_from (D : Z) (slice_of : Z -> slice) (half_maps : bool)
  (os : nat -> orders * orders) (rounds : list (nat * Z)) :
  forall st : streams,
    fold_left (fun acc p => s <- acc ;;
                            step D slice_of half_maps os s (fst p) (snd p))
              rounds (Some st)
    = f <- insert_all D (full st) (map (call_full slice_of os) rounds) ;;
      h1 <- insert_all D (half1 st)
              (map (call_half slice_of os)
                   (if half_maps then even_rounds rounds else [])) ;;
      h2 <- insert_all D (half2 st)
              (map (call_half slice_of os)
                   (if half_maps then odd_rounds rounds else [])) ;;
      Some (mk_streams f h1 h2).
Proof.
  set (F := fun (acc : option streams) (p : nat * Z) =>
              s <- acc ;; step D slice_of half_maps os s (fst p) (snd p)).
  induction rounds as [| [i ii] l IH]; intros st.
  - destruct half_maps, st; reflexivity.
  - cbn [fold_left map]. rewrite insert_all_cons.
    change (call_full slice_of os (i, ii)) with (fst (os i), slice_of ii).
    change (F (Some st) (i, ii))
      with (step D slice_of half_maps os st i ii).
    unfold step. cbn [fst snd].
    destruct (add_slice D (fst (os i)) (full st) (slice_of ii)) as [f |];
      cbn [bind]; [| apply fold_left_none].
    destruct half_maps.
    + unfold even_rounds, odd_rounds. cbn [filter snd].
      destruct (ii mod 2 =? 0)%Z; cbn [negb map];
        rewrite insert_all_cons;
        change (call_half slice_of os (i, ii)) with (snd (os i), slice_of ii);
        cbn [fst snd].
      * destruct (add_slice D (snd (os i)) (half1 st) (slice_of ii)) as [h |];
          cbn [bind].
        -- rewrite IH. reflexivity.
        -- unfold F. rewrite fold_left_none.
           now destruct (insert_all D f (map (call_full slice_of os) l)).
      * destruct (add_slice D (snd (os i)) (half2 st) (slice_of ii)) as [h |];
          cbn [bind].
        -- rewrite IH. reflexivity.
        -- unfold F. rewrite fold_left_none.
           destruct (insert_all D f (map (call_full slice_of os) l));
             cbn [bind]; [| reflexivity].
           now destruct (insert_all D (half1 st) _).
    + rewrite IH. reflexivity.
Qed.

Lemma accumulate_split (D : Z) (slice_of : Z -> slice) (half_maps : bool)
  (os : nat -> orders * orders) (iterator : list Z) :
  accumulate D slice_of half_maps os iterator
  = f <- insert_all D (zeros D, zeros D)
           (map (call_full slice_of os) (enumerate iterator)) ;;
    h1 <- insert_all D (zeros D, zeros D)
            (map (call_half slice_of os)
                 (if half_maps then even_rounds (enumerate iterator) else [])) ;;
    h2 <- insert_all D (zeros D, zeros D)
            (map (call_half slice_of os)
                 (if half_maps then odd_rounds (enumerate iterator) else [])) ;;
    Some (mk_streams f h1 h2).
Proof.
  unfold accumulate. rewrite accumulate_from. reflexivity.
Qed.

Lemma rounds_images (s : nat) (l : list Z) :
  map snd (combine (seq s (length l)) l) = l
  /\ map snd (even_rounds (combine (seq s (length l)) l)) = evens l
  /\ map snd (odd_rounds (combine (seq s (length l)) l)) = odds l.
Proof.
  revert s. induction l as [| ii l IH]; intros s.
  - repeat split.
  - destruct (IH (S s)) as (H1 & H2 & H3).
    cbn [length seq combine map snd even_rounds odd_rounds evens odds filter].
    destruct (ii mod 2 =? 0)%Z; cbn [negb map snd];
      fold (even_rounds (combine (seq (S s) (length l)) l));
      fold (odd_rounds (combine (seq (S s) (length l)) l));
      fold (evens l); fold (odds l);
      rewrite H1, H2, H3; repeat split.
Qed.

(** C6: the full stream receives the slice of every image of the iterator;
    with half-maps, the half-1 stream receives exactly the slices of the
    images of even index and the half-2 stream exactly those of odd index
    (without half-maps the two stay as initialized); each stream is the
    insertion of its own slices into its own zero grids, with the write
    orders of its own calls. *)
Theorem accumulate_streams (D : Z) (slice_of : Z -> slice) (half_maps : bool)
  (os : nat -> orders * orders) (iterator : list Z) :
  accumulate D slice_of half_maps os iterator
  = (f <- insert_all D (zeros D, zeros D)
            (map (call_full slice_of os) (enumerate iterator)) ;;
     h1 <- insert_all D (zeros D, zeros D)
             (map (call_half slice_of os)
                  (if half_maps then even_rounds (enumerate iterator) else [])) ;;
     h2 <- insert_all D (zeros D, zeros D)
             (map (call_half slice_of os)
                  (if half_maps then odd_rounds (enumerate iterator) else [])) ;;
     Some (mk_streams f h1 h2))
  /\ map snd (map (call_full slice_of os) (enumerate iterator))
     = map slice_of iterator
  /\ map snd (map (call_half slice_of os) (even_rounds (enumerate iterator)))
     = map slice_of (evens iterator)
  /\ map snd (map (call_half slice_of os) (odd_rounds (enumerate iterator)))
     = map slice_of (odds iterator).
Proof.
  split; [apply accumulate_split |].
  destruct (rounds_images 0 iterator) as (H1 & H2 & H3).
  unfold enumerate. rewrite !map_map.
  split; [| split].
  - transitivity (map slice_of
                    (map snd (combine (seq 0 (length iterator)) iterator)));
      [now rewrite map_map | now rewrite H1].
  - rewrite <- H2. now rewrite map_map.
  - rewrite <- H3. now rewrite map_map.
Qed.

(** ** Clipping and index bounds *)

Lemma d2_nonneg (D : Z) : (0 < D)%Z -> (0 <= d2 D)%Z.
Proof. intros H. unfold d2. apply Z.quot_pos; lia. Qed.

Lemma d2_odd (D : Z) : (0 < D)%Z -> Z.odd D = true -> D = (2 * d2 D + 1)%Z.
Proof.
  intros Hpos Hodd. unfold d2. rewrite Z.quot_div_nonneg by lia.
  apply Z.odd_spec in Hodd. destruct Hodd as [m Hm].
  pose proof (Z.div_mod D 2) as Hdm.
  pose proof (Z.mod_pos_bound D 2) as Hb. lia.
Qed.

Lemma clip_range (D : Z) (x : R) :
  (0 <= d2 D)%Z -> IZR (- d2 D) <= clip D x <= IZR (d2 D).
Proof.
  intros H. unfold clip. apply IZR_le in H. rewrite opp_IZR.
  unfold Rmin, Rmax.
  destruct (Rle_dec x (- IZR (d2 D)));
    destruct (Rle_dec _ (IZR (d2 D))); simpl in *; lra.
Qed.

Lemma clip_cases (D : Z) (x : R) :
  (0 <= d2 D)%Z ->
  (IZR (- d2 D) <= x <= IZR (d2 D) -> clip D x = x)
  /\ (IZR (d2 D) < x -> clip D x = IZR (d2 D))
  /\ (x < IZR (- d2 D) -> clip D x = IZR (- d2 D)).
Proof.
  intros H. unfold clip. apply IZR_le in H. rewrite opp_IZR.
  unfold Rmin, Rmax.
  destruct (Rle_dec x (- IZR (d2 D)));
    destruct (Rle_dec _ (IZR (d2 D))); simpl in *; repeat split; intros; lra.
Qed.

Lemma Zceil_IZR (z : Z) : Zceil (IZR z) = z.
Proof. apply Zceil_eq. lra. Qed.

Lemma round_IZR (r : rounding) (z : Z) : round r (IZR z) = z.
Proof. destruct r; simpl; [apply ZfloorZ | apply Zceil_IZR]. Qed.

Lemma round_range (r : rounding) (lo hi : Z) (x : R) :
  IZR lo <= x <= IZR hi -> (lo <= round r x <= hi)%Z.
Proof.
  intros [Hlo Hhi]. destruct r; simpl.
  - split.
    + rewrite <- (ZfloorZ lo). now apply Zfloor_le.
    + rewrite <- (ZfloorZ hi). now apply Zfloor_le.
  - split.
    + rewrite <- (Zceil_IZR lo). now apply Zceil_le.
    + rewrite <- (Zceil_IZR hi). now apply Zceil_le.
Qed.

Lemma corner_point_range (D : Z) (k : corner) (s : sample) :
  (0 <= d2 D)%Z ->
  let '(xi, yi, zi) := corner_point D k s in
  (- d2 D <= xi <= d2 D)%Z /\ (- d2 D <= yi <= d2 D)%Z
  /\ (- d2 D <= zi <= d2 D)%Z.
Proof.
  intros H. unfold corner_point, corner_of, clip_coord.
  destruct k as [[rx ry] rz]. destruct (coord s) as [[x y] z].
  split; [| split]; apply round_range; apply clip_range; assumption.
Qed.

Lemma corner_voxel_range (D : Z) (k : corner) (s : sample) :
  (0 <= d2 D)%Z ->
  let '(a, b, c) := corner_voxel D k s in
  (0 <= a <= 2 * d2 D)%Z /\ (0 <= b <= 2 * d2 D)%Z /\ (0 <= c <= 2 * d2 D)%Z.
Proof.
  intros H. pose proof (corner_point_range D k s H) as Hp.
  unfold corner_voxel, voxel. destruct (corner_point D k s) as [[xi yi] zi].
  lia.
Qed.

Lemma corner_voxel_in_cube (D : Z) (k : corner) (s : sample) :
  (0 < D)%Z -> Z.odd D = true -> in_cube D (corner_voxel D k s) = true.
Proof.
  intros Hpos Hodd. pose proof (d2_odd D Hpos Hodd) as HD.
  pose proof (corner_voxel_range D k s (d2_nonneg D Hpos)) as Hv.
  destruct (corner_voxel D k s) as [[a b] c]. unfold in_cube.
  repeat (apply andb_true_intro; split);
    try apply Z.leb_le; try apply Z.ltb_lt; lia.
Qed.

Lemma norm_index_in_cube (n : Z) (i : index) :
  in_cube n i = true -> norm_index n i = Some i.
Proof.
  destruct i as [[a b] c]. unfold in_cube, norm_index, norm_axis. intros H.
  repeat (apply andb_prop in H; destruct H as [H ?]).
  repeat match goal with
         | E : (_ <=? _)%Z = true |- _ => rewrite E; clear E
         | E : (_ <? _)%Z = true |- _ => rewrite E; clear E
         end.
  reflexivity.
Qed.

Lemma mapM_norm_in_cube (n : Z) (l : list index) :
  (forall i, In i l -> in_cube n i = true) -> mapM (norm_index n) l = Some l.
Proof.
  induction l as [| i l IH]; intros H; simpl; auto.
  rewrite norm_index_in_cube by (apply H; now left). simpl.
  rewrite IH by (intros j Hj; apply H; now right). reflexivity.
Qed.

Lemma combine_map {A B C : Type} (f : A -> B) (g : A -> C) (l : list A) :
  combine (map f l) (map g l) = map (fun a => (f a, g a)) l.
Proof. induction l as [| a l IH]; simpl; auto. now rewrite IH. Qed.

Lemma put_delta_odd (p : write_order) (D : Z) (k : corner)
  (term : sample -> R) (sl : slice) :
  (0 < D)%Z -> Z.odd D = true ->
  put_delta p D (corner_voxel D k) term sl
  = Some (scatter zero_fn
            (map (fun a => (corner_voxel D k a, term a)) (reorder p sl))).
Proof.
  intros Hpos Hodd. unfold put_delta. rewrite mapM_norm_in_cube.
  - cbn [bind]. now rewrite combine_map, reorder_map.
  - intros i Hi. apply in_map_iff in Hi. destruct Hi as (s & <- & _).
    now apply corner_voxel_in_cube.
Qed.

Lemma osum_some (l : list (option delta)) :
  (forall o, In o l -> exists d, o = Some d) -> exists d, osum l = Some d.
Proof.
  induction l as [| o l IH]; intros H; simpl.
  - now exists dzero.
  - destruct (H o (or_introl eq_refl)) as [d ->].
    destruct IH as [d' ->]; [intros; apply H; now right |].
    now exists (dplus d d').
Qed.

Lemma slice_delta_odd (D : Z) (o : orders) (sl : slice) :
  (0 < D)%Z -> Z.odd D = true -> exists d, slice_delta D D D o sl = Some d.
Proof.
  intros Hpos Hodd. unfold slice_delta. apply osum_some.
  intros x Hx. apply in_map_iff in Hx. destruct Hx as (k & <- & _).
  unfold call_delta. rewrite !put_delta_odd by assumption. simpl. eauto.
Qed.

Lemma add_slice_odd (D : Z) (o : orders) (vc : tensor * tensor) (sl : slice) :
  (0 < D)%Z -> Z.odd D = true ->
  side (fst vc) = D -> side (snd vc) = D ->
  exists d, slice_delta D D D o sl = Some d
            /\ add_slice D o vc sl = Some (act vc d).
Proof.
  intros Hpos Hodd Hv Hc. destruct (slice_delta_odd D o sl Hpos Hodd) as [d Hd].
  exists d. split; [exact Hd |]. rewrite add_slice_delta, Hv, Hc, Hd.
  reflexivity.
Qed.

Lemma accessed_length (D : Z) (sl : slice) :
  length (accessed D sl) = (8 * length sl)%nat.
Proof.
  unfold accessed, corners. simpl. rewrite !length_app, !length_map. simpl. lia.
Qed.

Lemma clip_above (D : Z) (x : R) :
  (0 <= d2 D)%Z -> IZR (d2 D) <= x -> clip D x = IZR (d2 D).
Proof.
  intros Hd Hx. destruct (clip_cases D x Hd) as (Hin & Habove & _).
  destruct (Req_dec_T x (IZR (d2 D))) as [-> | Hne].
  - apply Hin. apply IZR_le in Hd. rewrite opp_IZR. lra.
  - apply Habove. lra.
Qed.

(** Clipping a clipped coordinate changes nothing. *)
Lemma clip_coord_idem (D : Z) (c : R * R * R) :
  (0 <= d2 D)%Z -> clip_coord D (clip_coord D c) = clip_coord D c.
Proof.
  intros Hd. destruct c as [[x y] z]. unfold clip_coord.
  assert (H : forall u, clip D (clip D u) = clip D u).
  { intros u. apply (clip_cases D (clip D u) Hd). now apply clip_range. }
  now rewrite !H.
Qed.

Lemma add_for_corner_clipped (D : Z) (o : orders) (sl : slice) (k : corner)
  (vc : tensor * tensor) :
  (0 <= d2 D)%Z ->
  add_for_corner D o (map (clip_sample D) sl) k vc = add_for_corner D o sl k vc.
Proof.
  intros Hd. unfold add_for_corner. rewrite !map_map.
  assert (Hv : forall s, corner_voxel D k (clip_sample D s) = corner_voxel D k s).
  { intros s. unfold corner_voxel, corner_point, clip_sample. cbn [coord].
    now rewrite clip_coord_idem. }
  assert (Hw : forall s, corner_weight D k (clip_sample D s) = corner_weight D k s).
  { intros s. unfold corner_weight, corner_point, clip_sample. cbn [coord].
    now rewrite clip_coord_idem. }
  rewrite (map_ext (fun s => (corner_voxel D k (clip_sample D s),
                              volume_term D k (clip_sample D s)))
                   (fun s => (corner_voxel D k s, volume_term D k s))).
  2:{ intros s. unfold volume_term. now rewrite Hv, Hw. }
  rewrite (map_ext (fun s => (corner_voxel D k (clip_sample D s),
                              counts_term D k (clip_sample D s)))
                   (fun s => (corner_voxel D k s, counts_term D k s))).
  2:{ intros s. unfold counts_term. now rewrite Hv, Hw. }
  reflexivity.
Qed.

(** A sample contributes as the sample on its clipped coordinate does. *)
Lemma add_slice_clipped (D : Z) (o : orders) (vc : tensor * tensor)
  (sl : slice) :
  (0 <= d2 D)%Z ->
  add_slice D o vc sl = add_slice D o vc (map (clip_sample D) sl).
Proof.
  intros Hd. unfold add_slice. f_equal.
  extensionality acc. extensionality k.
  destruct acc as [g |]; cbn [bind]; [| reflexivity].
  symmetry. now apply add_for_corner_clipped.
Qed.

Lemma d2_even (D : Z) : (0 < D)%Z -> Z.even D = true -> D = (2 * d2 D)%Z.
Proof.
  intros Hpos Hev. unfold d2. rewrite Z.quot_div_nonneg by lia.
  apply Z.even_spec in Hev. destruct Hev as [m Hm].
  pose proof (Z.div_mod D 2) as Hdm.
  pose proof (Z.mod_pos_bound D 2) as Hb. lia.
Qed.

Lemma norm_axis_side (n : Z) : (0 < n)%Z -> norm_axis n n = None.
Proof.
  intros Hn. unfold norm_axis.
  replace (n <? n)%Z with false by (symmetry; apply Z.ltb_ge; lia).
  replace (n <? 0)%Z with false by (symmetry; apply Z.ltb_ge; lia).
  now rewrite !andb_false_r.
Qed.

Lemma norm_index_side (n a b c : Z) :
  (0 < n)%Z -> a = n \/ b = n \/ c = n -> norm_index n (a, b, c) = None.
Proof.
  intros Hn H. unfold norm_index.
  destruct H as [-> | [-> | ->]]; rewrite ?norm_axis_side by assumption;
    cbn [bind]; try reflexivity;
    destruct (norm_axis n a); cbn [bind]; try reflexivity;
    rewrite ?norm_axis_side by assumption; cbn [bind]; try reflexivity;
    destruct (norm_axis n b); cbn [bind]; try reflexivity;
    rewrite ?norm_axis_side by assumption; reflexivity.
Qed.

(** For an even grid size, a component at or above the upper bound leads
    to the index D on its axis, in every call. *)
Lemma corner_voxel_even (D : Z) (k : corner) (s : sample) :
  (0 < D)%Z -> Z.even D = true -> reaches_upper_bound D (coord s) ->
  let '(a, b, c) := corner_voxel D k s in a = D \/ b = D \/ c = D.
Proof.
  intros Hpos Hev Hs. pose proof (d2_nonneg D Hpos) as Hd.
  pose proof (d2_even D Hpos Hev) as HD.
  unfold corner_voxel, corner_point, corner_of, clip_coord, voxel.
  unfold reaches_upper_bound in Hs.
  destruct k as [[rx ry] rz]. destruct (coord s) as [[x y] z].
  destruct Hs as [Hx | [Hy | Hz]].
  - right. right. rewrite (clip_above D x Hd Hx), round_IZR. lia.
  - right. left. rewrite (clip_above D y Hd Hy), round_IZR. lia.
  - left. rewrite (clip_above D z Hd Hz), round_IZR. lia.
Qed.

Lemma in_cube_side (n a b c : Z) :
  a = n \/ b = n \/ c = n -> in_cube n (a, b, c) = false.
Proof.
  intros H. unfold in_cube.
  destruct H as [-> | [-> | ->]];
    replace (n <? n)%Z with false by (symmetry; apply Z.ltb_ge; lia);
    rewrite ?andb_false_r; reflexivity.
Qed.

Lemma add_slice_even_raises (D : Z) (o : orders) (vc : tensor * tensor)
  (sl : slice) (s : sample) :
  (0 < D)%Z -> Z.even D = true -> side (fst vc) = D ->
  In s sl -> reaches_upper_bound D (coord s) ->
  in_cube D (corner_voxel D (Floor, Floor, Floor) s) = false
  /\ add_slice D o vc sl = None.
Proof.
  intros Hpos Hev Hv Hin Hs.
  pose proof (corner_voxel_even D (Floor, Floor, Floor) s Hpos Hev Hs) as Hk.
  destruct (corner_voxel D (Floor, Floor, Floor) s) as [[a b] c] eqn:E.
  split; [now apply in_cube_side |].
  unfold add_slice, corners. cbn [fold_left].
  assert (H : add_for_corner D o sl (Floor, Floor, Floor) vc = None).
  { unfold add_for_corner, iadd_at. rewrite map_map. cbn [fst].
    rewrite (mapM_none (norm_index (side (fst vc)))
               (map (fun x => corner_voxel D (Floor, Floor, Floor) x) sl)
               (a, b, c)).
    - reflexivity.
    - apply in_map_iff. exists s. now split.
    - rewrite Hv. now apply norm_index_side. }
  cbn [bind]. rewrite H. reflexivity.
Qed.

(** C3 (as amended): [add_slice] clips every coordinate component to
    [-floor(D/2), floor(D/2)]: a component inside the interval is kept, one
    above is set to the upper bound and one below to the lower bound.  No
    sample is dropped: eight entries are addressed per sample, and inserting
    a slice is inserting the slice of its clipped samples.  For an odd grid
    size D, as [main] passes it (the image size plus one), every entry index
    addressed lies in [0, D) on every axis and the insertion into grids of
    side D does not raise.  For an even D the indices addressed lie in
    [0, D], and a sample with a component at or above D/2 addresses the
    index D: the insertion raises. *)
Theorem add_slice_clips_in_range (D : Z) :
  (0 < D)%Z ->
  (forall x : R,
      IZR (- d2 D) <= clip D x <= IZR (d2 D)
      /\ (IZR (- d2 D) <= x <= IZR (d2 D) -> clip D x = x)
      /\ (IZR (d2 D) < x -> clip D x = IZR (d2 D))
      /\ (x < IZR (- d2 D) -> clip D x = IZR (- d2 D)))
  /\ (forall sl : slice, length (accessed D sl) = (8 * length sl)%nat)
  /\ (forall (o : orders) (vc : tensor * tensor) (sl : slice),
         add_slice D o vc sl = add_slice D o vc (map (clip_sample D) sl))
  /\ (Z.odd D = true ->
      (forall (sl : slice) (i : index),
          In i (accessed D sl) -> in_cube D i = true)
      /\ (forall (o : orders) (vc : tensor * tensor) (sl : slice),
             side (fst vc) = D -> side (snd vc) = D ->
             exists g, add_slice D o vc sl = Some g))
  /\ (Z.even D = true ->
      (forall (sl : slice) (i : index),
          In i (accessed D sl) -> in_cube (D + 1) i = true)
      /\ (forall (o : orders) (vc : tensor * tensor) (sl : slice) (s : sample),
             side (fst vc) = D -> In s sl ->
             reaches_upper_bound D (coord s) ->
             in_cube D (corner_voxel D (Floor, Floor, Floor) s) = false
             /\ add_slice D o vc sl = None)).
Proof.
  intros Hpos. pose proof (d2_nonneg D Hpos) as Hd.
  split; [| split; [| split; [| split]]].
  - intros x. split; [now apply clip_range | now apply clip_cases].
  - apply accessed_length.
  - intros o vc sl. now apply add_slice_clipped.
  - intros Hodd. split.
    + intros sl i Hi. unfold accessed in Hi. apply in_flat_map in Hi.
      destruct Hi as (k & _ & Hi). apply in_map_iff in Hi.
      destruct Hi as (s & <- & _). now apply corner_voxel_in_cube.
    + intros o vc sl Hv Hc.
      destruct (add_slice_odd D o vc sl Hpos Hodd Hv Hc) as (d & _ & H). eauto.
  - intros Hev. split.
    + intros sl i Hi. unfold accessed in Hi. apply in_flat_map in Hi.
      destruct Hi as (k & _ & Hi). apply in_map_iff in Hi.
      destruct Hi as (s & <- & _).
      pose proof (corner_voxel_range D k s Hd) as Hr.
      pose proof (d2_even D Hpos Hev) as HD.
      destruct (corner_voxel D k s) as [[a b] c]. unfold in_cube.
      repeat (apply andb_true_intro; split);
        try apply Z.leb_le; try apply Z.ltb_lt; lia.
    + intros o vc sl s Hv Hin Hs. now apply add_slice_even_raises.
Qed.

(** ** Coinciding corners of one sample *)

Lemma index_eqb_eq (i j : index) : index_eqb i j = true <-> i = j.
Proof.
  destruct i as [[a b] c], j as [[a' b'] c']. unfold index_eqb.
  rewrite !andb_true_iff, !Z.eqb_eq. split.
  - intros [[-> ->] ->]. reflexivity.
  - intros H. inversion H. auto.
Qed.

Lemma index_eqb_refl (i : index) : index_eqb i i = true.
Proof. now apply index_eqb_eq. Qed.

Lemma index_eqb_neq (i j : index) : i <> j -> index_eqb i j = false.
Proof.
  intros H. destruct (index_eqb i j) eqn:E; auto.
  apply index_eqb_eq in E. contradiction.
Qed.

Lemma eqb_add_r (a b d : Z) : (a + d =? b + d)%Z = (a =? b)%Z.
Proof.
  destruct (a =? b)%Z eqn:E.
  - apply Z.eqb_eq in E. subst. apply Z.eqb_refl.
  - apply Z.eqb_neq in E. apply Z.eqb_neq. lia.
Qed.

Lemma dedup_in (l : list index) (i : index) : In i (dedup l) <-> In i l.
Proof.
  induction l as [| j l IH]; simpl; [tauto |].
  destruct (existsb (index_eqb j) l) eqn:E; simpl; rewrite IH; [| tauto].
  split; [tauto |]. intros [-> | H]; auto.
  apply existsb_exists in E. destruct E as (j' & Hj' & Ej').
  apply index_eqb_eq in Ej'. now subst.
Qed.

Lemma dedup_nodup (l : list index) : NoDup (dedup l).
Proof.
  induction l as [| j l IH]; simpl; [constructor |].
  destruct (existsb (index_eqb j) l) eqn:E; auto.
  constructor; auto. rewrite dedup_in. intros Hj.
  assert (existsb (index_eqb j) l = true) as E'.
  { apply existsb_exists. exists j. split; auto. apply index_eqb_refl. }
  congruence.
Qed.

(** Evaluates the comparisons of corner entries once it is known, per
    axis, whether floor and ceil agree. *)
Ltac split_eqb :=
  repeat (rewrite ?Z.eqb_refl;
          match goal with
          | |- context [Z.eqb ?a ?b] =>
              let E := fresh "E" in
              destruct (Z.eqb a b) eqn:E;
              [ apply Z.eqb_eq in E; subst
              | let E' := fresh "E" in
                assert (E' : Z.eqb b a = false) by (now rewrite Z.eqb_sym);
                rewrite ?E, ?E' ]
          end);
  rewrite ?Z.eqb_refl.

Ltac corner_cases :=
  unfold sample_voxels, corner_voxel, corner_point, corner_of, voxel,
    integer_axes, integral, corners, count_voxel;
  match goal with
  | |- context [clip_coord ?D (coord ?s)] =>
      let x := fresh "x" in
      let y := fresh "y" in
      let z := fresh "z" in
      destruct (clip_coord D (coord s)) as [[x y] z];
      cbn [round map filter length dedup existsb rsum fold_right index_eqb];
      repeat rewrite eqb_add_r;
      generalize (Zfloor x) (Zceil x) (Zfloor y) (Zceil y) (Zfloor z) (Zceil z);
      intros
  end;
  split_eqb;
  cbn [andb orb negb length Nat.add Nat.sub Nat.pow Nat.mul fold_right].

Lemma sample_voxels_distinct (D : Z) (s : sample) :
  length (dedup (sample_voxels D s)) = (2 ^ (3 - integer_axes D s))%nat.
Proof. corner_cases; reflexivity. Qed.

Lemma sample_voxels_count (D : Z) (s : sample) (k0 : corner) :
  count_voxel (corner_voxel D k0 s) (sample_voxels D s)
  = (2 ^ integer_axes D s)%nat.
Proof.
  destruct k0 as [[[|] [|]] [|]]; corner_cases; reflexivity.
Qed.

Lemma corner_terms_sum (D : Z) (s : sample) (k0 : corner) (T : Z * Z * Z -> R) :
  rsum (map (fun k => if index_eqb (corner_voxel D k s) (corner_voxel D k0 s)
                      then T (corner_point D k s) else 0) corners)
  = 2 ^ integer_axes D s * T (corner_point D k0 s).
Proof.
  destruct k0 as [[[|] [|]] [|]]; corner_cases; cbn [pow]; ring.
Qed.

Lemma integral_spec (x : R) :
  integral x = true -> Zceil x = Zfloor x /\ x = IZR (Zfloor x).
Proof.
  unfold integral. intros H. apply Z.eqb_eq in H.
  pose proof (Zfloor_ceil_bound x) as Hb. rewrite <- H in Hb.
  split; [now symmetry | lra].
Qed.

Lemma lattice_sample_weight (D : Z) (s : sample) (k : corner) :
  integer_axes D s = 3%nat -> corner_weight D k s = 1.
Proof.
  unfold integer_axes, corner_weight, corner_point, corner_of.
  destruct (clip_coord D (coord s)) as [[x y] z]. intros H.
  destruct (integral x) eqn:Ex; destruct (integral y) eqn:Ey;
    destruct (integral z) eqn:Ez; try discriminate H.
  apply integral_spec in Ex, Ey, Ez.
  destruct Ex as [Cx Fx], Ey as [Cy Fy], Ez as [Cz Fz].
  apply weight_one_iff. destruct k as [[[|] [|]] [|]]; unfold to_R3, round;
    rewrite ?Cx, ?Cy, ?Cz; congruence.
Qed.

(** ** What a slice adds to an entry *)

Lemma scatter_app (f : index -> R) (l1 l2 : list (index * R)) :
  scatter f (l1 ++ l2) = scatter (scatter f l1) l2.
Proof. unfold scatter. apply fold_left_app. Qed.

Lemma scatter_miss (l : list (index * R)) (i : index) :
  (forall p, In p l -> fst p <> i) -> forall f, scatter f l i = f i.
Proof.
  unfold scatter. induction l as [| [j v] l IH]; intros H f; simpl; auto.
  rewrite IH by (intros p Hp; apply H; now right).
  unfold upd. simpl. rewrite index_eqb_neq; auto.
  apply (H (j, v)). now left.
Qed.

(** Within one indexed [+=], an entry that a single sample addresses gets
    that sample's term. *)
Lemma scatter_single (vox : sample -> index) (term : sample -> R)
  (sl1 sl2 : slice) (s : sample) (i : index) :
  (forall s', In s' (sl1 ++ sl2) -> vox s' <> i) ->
  scatter zero_fn (map (fun a => (vox a, term a)) (sl1 ++ s :: sl2)) i
  = if index_eqb (vox s) i then term s else 0.
Proof.
  intros H. rewrite map_app, scatter_app. cbn [map].
  change (scatter ?f (?p :: ?l)) with (scatter (upd f (fst p) (snd p)) l).
  rewrite scatter_miss.
  - unfold upd. cbn [fst snd]. destruct (index_eqb (vox s) i); auto.
    rewrite scatter_miss; auto.
    intros p Hp. apply in_map_iff in Hp. destruct Hp as (a & <- & Ha).
    apply H. apply in_or_app. now left.
  - intros p Hp. apply in_map_iff in Hp. destruct Hp as (a & <- & Ha).
    apply H. apply in_or_app. now right.
Qed.

Lemma osum_map_some {K : Type} (F : K -> delta) (ks : list K) :
  osum (map (fun k => Some (F k)) ks)
  = Some (fun i => rsum (map (fun k => fst (F k) i) ks),
          fun i => rsum (map (fun k => snd (F k) i) ks)).
Proof.
  induction ks as [| k ks IH]; cbn [map osum fold_right].
  - reflexivity.
  - change (fold_right oplus (Some dzero) ?l) with (osum l). rewrite IH.
    reflexivity.
Qed.

Lemma slice_delta_sum (D : Z) (o : orders) (sl : slice) :
  (0 < D)%Z -> Z.odd D = true ->
  slice_delta D D D o sl
  = Some (slice_sum D (fun k => fst (o k)) (volume_term D) sl,
          slice_sum D (fun k => snd (o k)) (counts_term D) sl).
Proof.
  intros Hpos Hodd. unfold slice_delta.
  rewrite (map_ext _ (fun k => Some
     (scatter zero_fn (map (fun a => (corner_voxel D k a, volume_term D k a))
                           (reorder (fst (o k)) sl)),
      scatter zero_fn (map (fun a => (corner_voxel D k a, counts_term D k a))
                           (reorder (snd (o k)) sl))))).
  - rewrite osum_map_some. reflexivity.
  - intros k. unfold call_delta. rewrite !put_delta_odd by assumption.
    reflexivity.
Qed.

(** After the writes, an entry holds what it held or one of the values
    written to it. *)
Lemma scatter_cases (l : list (index * R)) (i : index) :
  forall f, scatter f l i = f i \/ exists v, In (i, v) l /\ scatter f l i = v.
Proof.
  unfold scatter. induction l as [| [j v] l IH]; intros f;
    cbn [fold_left fst snd].
  - now left.
  - destruct (IH (upd f j v)) as [H | (v' & Hin & H)].
    + rewrite H. unfold upd.
      destruct (index_eqb j i) eqn:E; [| now left].
      apply index_eqb_eq in E. subst j. right. exists v. split; [now left | reflexivity].
    + right. exists v'. split; [now right | exact H].
Qed.

(** An entry written once holds the value written. *)
Lemma scatter_nodup (l : list (index * R)) (i : index) (v : R) :
  NoDup (map fst l) -> In (i, v) l -> forall f, scatter f l i = v.
Proof.
  intros Hnd Hin f. apply in_split in Hin. destruct Hin as (l1 & l2 & ->).
  rewrite scatter_app.
  change (scatter ?g ((i, v) :: l2)) with (scatter (upd g i v) l2).
  rewrite scatter_miss.
  - unfold upd. now rewrite index_eqb_refl.
  - intros q Hq E. rewrite map_app in Hnd. cbn [map fst] in Hnd.
    apply NoDup_remove_2 in Hnd. apply Hnd. apply in_or_app. right.
    rewrite <- E. now apply in_map.
Qed.

Lemma written_or_not (l : list (index * R)) (i : index) :
  (exists v, In (i, v) l) \/ (forall q, In q l -> fst q <> i).
Proof.
  destruct (existsb (fun q => index_eqb (fst q) i) l) eqn:E.
  - left. apply existsb_exists in E. destruct E as ([j v] & Hin & E).
    apply index_eqb_eq in E. cbn [fst] in E. subst j. now exists v.
  - right. intros q Hq Hi.
    assert (existsb (fun q => index_eqb (fst q) i) l = true); [| congruence].
    apply existsb_exists. exists q. split; [exact Hq |].
    now apply index_eqb_eq.
Qed.

(** Without two writes to one entry the order of the writes is of no
    consequence. *)
Lemma scatter_nodup_perm (l l' : list (index * R)) (f : index -> R) :
  Permutation l l' -> NoDup (map fst l) -> scatter f l = scatter f l'.
Proof.
  intros Hp Hnd. extensionality i.
  assert (Hnd' : NoDup (map fst l'))
    by (eapply Permutation_NoDup; [apply Permutation_map, Hp | exact Hnd]).
  destruct (written_or_not l i) as [[v Hin] | Hno].
  - rewrite (scatter_nodup l i v Hnd Hin).
    symmetry. apply scatter_nodup; [exact Hnd' |].
    eapply Permutation_in; eassumption.
  - rewrite (scatter_miss l i Hno).
    symmetry. apply scatter_miss. intros q Hq. apply Hno.
    eapply Permutation_in; [apply Permutation_sym, Hp | exact Hq].
Qed.

Lemma scatter_collision_free (p : write_order) (vox : sample -> index)
  (term : sample -> R) (sl : slice) :
  NoDup (map vox sl) ->
  scatter zero_fn (map (fun a => (vox a, term a)) (reorder p sl))
  = scatter zero_fn (map (fun a => (vox a, term a)) sl).
Proof.
  intros Hnd. symmetry. apply scatter_nodup_perm.
  - apply Permutation_map, Permutation_sym, reorder_perm.
  - now rewrite map_map.
Qed.

(** For a slice without collisions the increment does not depend on the
    write orders. *)
Lemma slice_sum_collision_free (D : Z) (ord ord' : corner -> write_order)
  (term : corner -> sample -> R) (sl : slice) :
  collision_free D sl -> slice_sum D ord term sl = slice_sum D ord' term sl.
Proof.
  intros Hcf. extensionality i. unfold slice_sum. f_equal.
  apply map_ext. intros k.
  now rewrite (scatter_collision_free (ord k)),
              (scatter_collision_free (ord' k)) by apply Hcf.
Qed.

Lemma slice_delta_collision_free (D : Z) (o o' : orders) (sl : slice) :
  (0 < D)%Z -> Z.odd D = true -> collision_free D sl ->
  slice_delta D D D o sl = slice_delta D D D o' sl.
Proof.
  intros Hpos Hodd Hcf. rewrite !slice_delta_sum by assumption.
  f_equal. f_equal; now apply slice_sum_collision_free.
Qed.

Lemma slice_sum_single (D : Z) (ord ord' : corner -> write_order)
  (term : corner -> sample -> R) (s : sample) :
  slice_sum D ord term [s] = slice_sum D ord' term [s].
Proof.
  extensionality i. unfold slice_sum. f_equal. apply map_ext. intros k.
  now rewrite !reorder_single.
Qed.

Lemma reorder_split {A : Type} (p : write_order) (l1 l2 : list A) (a : A) :
  exists r1 r2,
    reorder p (l1 ++ a :: l2) = r1 ++ a :: r2
    /\ forall b, In b (r1 ++ r2) -> In b (l1 ++ l2).
Proof.
  assert (Hin : In a (reorder p (l1 ++ a :: l2))).
  { apply in_reorder. apply in_or_app. right. now left. }
  apply in_split in Hin. destruct Hin as (r1 & r2 & Hr).
  exists r1, r2. split; [exact Hr |].
  pose proof (reorder_perm p (l1 ++ a :: l2)) as Hp. rewrite Hr in Hp.
  apply Permutation_app_inv in Hp. intros b.
  now apply Permutation_in.
Qed.

(** When the clipped coordinate of a sample is an integer on n of the three
    axes, floor and ceil coincide there, the eight calls address only
    2^(3-n) distinct entries and each entry is addressed by 2^n of the
    calls.  If no other sample of the slice addresses the entry of a corner,
    that entry of the volume grows by 2^n times the sample's weighted value
    for the corner and that entry of the counts by 2^n times its weight
    term, whatever the write orders; for a sample on a lattice point (n = 3)
    the weight is 1 and the entry grows by 8 times [ff * ctf_mul],
    respectively 8 times [ctf_mul ^ 2]. *)
Lemma lone_sample_corners (D : Z) (o : orders) (sl1 sl2 : slice) (s : sample)
  (k0 : corner) (vc : tensor * tensor) :
  (0 < D)%Z -> Z.odd D = true ->
  side (fst vc) = D -> side (snd vc) = D ->
  (forall s' k, In s' (sl1 ++ sl2) -> corner_voxel D k s' <> corner_voxel D k0 s) ->
  let n := integer_axes D s in
  let i := corner_voxel D k0 s in
  length (dedup (sample_voxels D s)) = (2 ^ (3 - n))%nat
  /\ count_voxel i (sample_voxels D s) = (2 ^ n)%nat
  /\ (exists g, add_slice D o vc (sl1 ++ s :: sl2) = Some g
               /\ data (fst g) i = data (fst vc) i + 2 ^ n * volume_term D k0 s
               /\ data (snd g) i = data (snd vc) i + 2 ^ n * counts_term D k0 s)
  /\ (n = 3%nat ->
      volume_term D k0 s = ff s * ctf_mul s
      /\ counts_term D k0 s = ctf_mul s ^ 2).
Proof.
  intros Hpos Hodd Hv Hc Hfree n i.
  split; [apply sample_voxels_distinct |].
  split; [apply sample_voxels_count |].
  split.
  - eexists. split.
    + rewrite add_slice_delta, Hv, Hc, slice_delta_sum by assumption.
      reflexivity.
    + assert (Hone : forall (p : write_order) (term : corner -> sample -> R)
                            (k : corner),
                 scatter zero_fn
                   (map (fun a => (corner_voxel D k a, term k a))
                        (reorder p (sl1 ++ s :: sl2))) i
                 = if index_eqb (corner_voxel D k s) i then term k s else 0).
      { intros p term k.
        destruct (reorder_split p sl1 sl2 s) as (r1 & r2 & -> & Hr).
        apply scatter_single. intros s' Hs'. apply Hfree. now apply Hr. }
      unfold act, tadd, slice_sum. cbn [fst snd data].
      split; f_equal;
        (erewrite map_ext; [| intros k; apply Hone]).
      * apply (corner_terms_sum D s k0
                 (fun p => weight p (clip_coord D (coord s)) * ff s * ctf_mul s)).
      * apply (corner_terms_sum D s k0
                 (fun p => weight p (clip_coord D (coord s)) * ctf_mul s ^ 2)).
  - intros Hn. unfold volume_term, counts_term.
    rewrite (lattice_sample_weight D s k0 Hn). split; ring.
Qed.

(** ** Samples on lattice points *)

Lemma clip_IZR (D z : Z) :
  (- d2 D <= z <= d2 D)%Z -> clip D (IZR z) = IZR z.
Proof.
  intros H. apply clip_cases; [lia |]. split; apply IZR_le; lia.
Qed.

Lemma corner_point_lattice (D : Z) (k : corner) (x y z : Z) (v c : R) :
  (- d2 D <= x <= d2 D)%Z -> (- d2 D <= y <= d2 D)%Z ->
  (- d2 D <= z <= d2 D)%Z ->
  corner_point D k (lattice_sample x y z v c) = (x, y, z).
Proof.
  intros Hx Hy Hz. unfold corner_point, lattice_sample, clip_coord, corner_of.
  cbn [coord]. rewrite !clip_IZR by assumption.
  destruct k as [[rx ry] rz]. now rewrite !round_IZR.
Qed.

Lemma corner_voxel_lattice (D : Z) (k : corner) (x y z : Z) (v c : R) :
  (- d2 D <= x <= d2 D)%Z -> (- d2 D <= y <= d2 D)%Z ->
  (- d2 D <= z <= d2 D)%Z ->
  corner_voxel D k (lattice_sample x y z v c)
  = ((z + d2 D)%Z, (y + d2 D)%Z, (x + d2 D)%Z).
Proof.
  intros Hx Hy Hz. unfold corner_voxel.
  now rewrite corner_point_lattice by assumption.
Qed.

Lemma corner_weight_lattice (D : Z) (k : corner) (x y z : Z) (v c : R) :
  (- d2 D <= x <= d2 D)%Z -> (- d2 D <= y <= d2 D)%Z ->
  (- d2 D <= z <= d2 D)%Z ->
  corner_weight D k (lattice_sample x y z v c) = 1.
Proof.
  intros Hx Hy Hz. unfold corner_weight.
  rewrite corner_point_lattice by assumption. apply weight_one_iff.
  unfold lattice_sample, clip_coord, to_R3. cbn [coord].
  now rewrite !clip_IZR by assumption.
Qed.

Lemma volume_term_lattice (D : Z) (k : corner) (x y z : Z) (v c : R) :
  (- d2 D <= x <= d2 D)%Z -> (- d2 D <= y <= d2 D)%Z ->
  (- d2 D <= z <= d2 D)%Z ->
  volume_term D k (lattice_sample x y z v c) = v * c.
Proof.
  intros Hx Hy Hz. unfold volume_term.
  rewrite corner_weight_lattice by assumption.
  unfold lattice_sample. cbn [ff ctf_mul]. ring.
Qed.

Lemma counts_term_lattice (D : Z) (k : corner) (x y z : Z) (v c : R) :
  (- d2 D <= x <= d2 D)%Z -> (- d2 D <= y <= d2 D)%Z ->
  (- d2 D <= z <= d2 D)%Z ->
  counts_term D k (lattice_sample x y z v c) = c ^ 2.
Proof.
  intros Hx Hy Hz. unfold counts_term.
  rewrite corner_weight_lattice by assumption.
  unfold lattice_sample. cbn [ff ctf_mul]. ring.
Qed.

Ltac lattice_range := unfold d2; cbn; lia.

(** For the even grid size 2 the sample (1, 0, 0) addresses the entry
    (1, 1, 2), outside the cube of side 2, and the insertion raises. *)
Lemma add_slice_even_out_of_range :
  In (1, 1, 2)%Z (accessed 2 [lattice_sample 1 0 0 1 1])
  /\ in_cube 2 (1, 1, 2)%Z = false
  /\ forall o : orders,
       add_slice 2 o (zeros 2, zeros 2) [lattice_sample 1 0 0 1 1] = None.
Proof.
  assert (Hv : forall k, corner_voxel 2 k (lattice_sample 1 0 0 1 1) = (1, 1, 2)%Z).
  { intros k. rewrite corner_voxel_lattice by lattice_range. reflexivity. }
  split; [| split].
  - unfold accessed, corners. cbn [flat_map map app]. rewrite Hv. now left.
  - reflexivity.
  - intros o.
    apply (add_slice_even_raises 2 o (zeros 2, zeros 2) _
             (lattice_sample 1 0 0 1 1));
      [lia | reflexivity | reflexivity | now left |].
    unfold reaches_upper_bound, lattice_sample. cbn [coord]. left.
    apply IZR_le. lattice_range.
Qed.

Lemma add_slice_clips_in_range_witness :
  (forall x : R,
      IZR (- d2 3) <= clip 3 x <= IZR (d2 3)
      /\ (IZR (- d2 3) <= x <= IZR (d2 3) -> clip 3 x = x)
      /\ (IZR (d2 3) < x -> clip 3 x = IZR (d2 3))
      /\ (x < IZR (- d2 3) -> clip 3 x = IZR (- d2 3)))
  /\ (forall sl : slice, length (accessed 3 sl) = (8 * length sl)%nat)
  /\ (forall (o : orders) (vc : tensor * tensor) (sl : slice),
         add_slice 3 o vc sl = add_slice 3 o vc (map (clip_sample 3) sl))
  /\ (Z.odd 3 = true ->
      (forall (sl : slice) (i : index),
          In i (accessed 3 sl) -> in_cube 3 i = true)
      /\ (forall (o : orders) (vc : tensor * tensor) (sl : slice),
             side (fst vc) = 3%Z -> side (snd vc) = 3%Z ->
             exists g, add_slice 3 o vc sl = Some g))
  /\ (Z.even 3 = true ->
      (forall (sl : slice) (i : index),
          In i (accessed 3 sl) -> in_cube (3 + 1) i = true)
      /\ (forall (o : orders) (vc : tensor * tensor) (sl : slice) (s : sample),
             side (fst vc) = 3%Z -> In s sl ->
             reaches_upper_bound 3 (coord s) ->
             in_cube 3 (corner_voxel 3 (Floor, Floor, Floor) s) = false
             /\ add_slice 3 o vc sl = None)).
Proof.
  apply (add_slice_clips_in_range 3). lia.
Defined.

Lemma integer_axes_lattice (D : Z) (x y z : Z) (v c : R) :
  (- d2 D <= x <= d2 D)%Z -> (- d2 D <= y <= d2 D)%Z ->
  (- d2 D <= z <= d2 D)%Z ->
  integer_axes D (lattice_sample x y z v c) = 3%nat.
Proof.
  intros Hx Hy Hz. unfold integer_axes, lattice_sample, clip_coord, integral.
  cbn [coord]. rewrite !clip_IZR by assumption.
  now rewrite !ZfloorZ, !Zceil_IZR, !Z.eqb_refl.
Qed.

(** ** Two samples of one slice on one lattice point *)

Lemma reorder_pair {A : Type} (p : write_order) (a b : A) :
  reorder p [a; b] = [a; b] \/ reorder p [a; b] = [b; a].
Proof.
  cbn [reorder]. destruct (hd 0%nat (tl p)); cbn [insert_at];
    destruct (hd 0%nat p) as [| [| m]]; cbn [insert_at]; auto.
Qed.

Lemma colliding_voxel (k : corner) (v : R) :
  corner_voxel 3 k (lattice_sample 0 0 0 v 1) = (1, 1, 1)%Z.
Proof. rewrite corner_voxel_lattice by lattice_range. reflexivity. Qed.

Lemma colliding_volume_term (k : corner) (v : R) :
  volume_term 3 k (lattice_sample 0 0 0 v 1) = v.
Proof. rewrite volume_term_lattice by lattice_range. ring. Qed.

Lemma colliding_counts_term (k : corner) (v : R) :
  counts_term 3 k (lattice_sample 0 0 0 v 1) = 1.
Proof. rewrite counts_term_lattice by lattice_range. ring. Qed.

(** What one call adds to the center entry: the value of one of the two
    samples, and the weight of one. *)
Lemma colliding_call (p : write_order) (k : corner) :
  (scatter zero_fn
     (map (fun a => (corner_voxel 3 k a, volume_term 3 k a))
          (reorder p colliding_slice)) (1, 1, 1)%Z = 1
   \/ scatter zero_fn
        (map (fun a => (corner_voxel 3 k a, volume_term 3 k a))
             (reorder p colliding_slice)) (1, 1, 1)%Z = 2)
  /\ scatter zero_fn
       (map (fun a => (corner_voxel 3 k a, counts_term 3 k a))
            (reorder p colliding_slice)) (1, 1, 1)%Z = 1.
Proof.
  unfold colliding_slice.
  destruct (reorder_pair p (lattice_sample 0 0 0 1 1) (lattice_sample 0 0 0 2 1))
    as [-> | ->];
    cbn [map]; rewrite !colliding_voxel, !colliding_volume_term,
                 !colliding_counts_term;
    unfold scatter, upd; cbn; auto.
Qed.

Lemma colliding_in_order (k : corner) :
  scatter zero_fn
    (map (fun a => (corner_voxel 3 k a, volume_term 3 k a))
         (reorder (fst (in_order k)) colliding_slice)) (1, 1, 1)%Z = 2.
Proof.
  unfold colliding_slice, in_order. cbn [fst]. rewrite reorder_in_order.
  cbn [map]. rewrite !colliding_voxel, !colliding_volume_term.
  unfold scatter, upd. cbn. reflexivity.
Qed.

Lemma colliding_first_last (k : corner) :
  scatter zero_fn
    (map (fun a => (corner_voxel 3 k a, volume_term 3 k a))
         (reorder (fst (first_last k)) colliding_slice)) (1, 1, 1)%Z = 1.
Proof.
  unfold colliding_slice, first_last. cbn [fst reorder hd tl insert_at map].
  rewrite !colliding_voxel, !colliding_volume_term.
  unfold scatter, upd. cbn. reflexivity.
Qed.

Lemma colliding_add_slice (o : orders) :
  add_slice 3 o (zeros 3, zeros 3) colliding_slice
  = Some (act (zeros 3, zeros 3)
              (slice_sum 3 (fun k => fst (o k)) (volume_term 3) colliding_slice,
               slice_sum 3 (fun k => snd (o k)) (counts_term 3) colliding_slice)).
Proof.
  rewrite add_slice_delta. cbn [side zeros fst snd].
  rewrite slice_delta_sum by (lia || reflexivity). reflexivity.
Qed.

(** C2: the two samples of [colliding_slice] are written to the center entry
    in each of the eight calls.  Inserting this one slice into zero grids
    leaves 16 in the center of the volume when the writes land in the order
    of the positions and 8 when the first position lands last: the result of
    an insertion is not determined by the slices and their order, and the
    sum of the insertions of two sub-batches (the slice, and nothing) differs
    from a single pass. *)
Theorem insertion_not_reproducible :
  exists g1 g2 q,
    insert_all 3 (zeros 3, zeros 3) [(in_order, colliding_slice)] = Some g1
    /\ insert_all 3 (zeros 3, zeros 3) [(first_last, colliding_slice)] = Some g2
    /\ insert_all 3 (zeros 3, zeros 3) [] = Some q
    /\ data (fst g1) (1, 1, 1)%Z = 16
    /\ data (fst g2) (1, 1, 1)%Z = 8
    /\ g1 <> g2
    /\ pair_plus g2 q <> g1.
Proof.
  eexists. eexists. eexists.
  split; [rewrite insert_all_cons; cbn [fst snd]; rewrite colliding_add_slice;
          reflexivity |].
  split; [rewrite insert_all_cons; cbn [fst snd]; rewrite colliding_add_slice;
          reflexivity |].
  split; [reflexivity |].
  assert (H1 : slice_sum 3 (fun k => fst (in_order k)) (volume_term 3)
                 colliding_slice (1, 1, 1)%Z = 16).
  { unfold slice_sum, corners. cbn [map rsum fold_right].
    rewrite !colliding_in_order. lra. }
  assert (H2 : slice_sum 3 (fun k => fst (first_last k)) (volume_term 3)
                 colliding_slice (1, 1, 1)%Z = 8).
  { unfold slice_sum, corners. cbn [map rsum fold_right].
    rewrite !colliding_first_last. lra. }
  unfold act, tadd, pair_plus, tplus. cbn [fst snd data zeros side].
  rewrite H1, H2.
  split; [lra |]. split; [lra |]. split.
  - intros E. apply (f_equal (fun g => data (fst g) (1, 1, 1)%Z)) in E.
    cbn [fst data] in E. rewrite H1, H2 in E. lra.
  - intros E. apply (f_equal (fun g => data (fst g) (1, 1, 1)%Z)) in E.
    cbn [fst data] in E. rewrite H1, H2 in E. lra.
Qed.

(** C10: each of the two samples of [colliding_slice] lies on the lattice
    point (0, 0, 0), so its eight corners are the one center entry; inserted
    alone, the sample of value v leaves 8 * v in the center of the volume and
    8 in the center of the counts.  Inserted together in one slice, the two
    do not leave 8 * 1 + 8 * 2 and 8 + 8: in each of the eight calls one of
    the two writes replaces the other, so the volume ends between 8 and 16
    and the counts at 8, whatever the write orders. *)
Theorem colliding_samples_lose_contribution :
  (forall v : R,
      integer_axes 3 (lattice_sample 0 0 0 v 1) = 3%nat
      /\ sample_voxels 3 (lattice_sample 0 0 0 v 1)
         = map (fun _ => (1, 1, 1)%Z) corners
      /\ forall o : orders,
           exists g,
             add_slice 3 o (zeros 3, zeros 3) [lattice_sample 0 0 0 v 1] = Some g
             /\ data (fst g) (1, 1, 1)%Z = 8 * v
             /\ data (snd g) (1, 1, 1)%Z = 8)
  /\ forall o : orders,
       exists g,
         add_slice 3 o (zeros 3, zeros 3) colliding_slice = Some g
         /\ 8 <= data (fst g) (1, 1, 1)%Z <= 16
         /\ data (fst g) (1, 1, 1)%Z <> 8 * 1 + 8 * 2
         /\ data (snd g) (1, 1, 1)%Z = 8
         /\ data (snd g) (1, 1, 1)%Z <> 8 + 8.
Proof.
  split.
  - intros v. split; [apply integer_axes_lattice; lattice_range |].
    split.
    { unfold sample_voxels, corners. cbn [map]. now rewrite !colliding_voxel. }
    intros o.
    destruct (lone_sample_corners 3 o [] [] (lattice_sample 0 0 0 v 1)
                (Floor, Floor, Floor) (zeros 3, zeros 3))
      as (_ & _ & (g & Hg & Hgv & Hgc) & _);
      [lia | reflexivity | reflexivity | reflexivity | intros s' k [] |].
    exists g. split; [exact Hg |].
    rewrite colliding_voxel in Hgv, Hgc.
    rewrite integer_axes_lattice in Hgv, Hgc by lattice_range.
    rewrite colliding_volume_term in Hgv. rewrite colliding_counts_term in Hgc.
    cbn [fst snd data zeros pow] in Hgv, Hgc. split; lra.
  - intros o. eexists. split; [apply colliding_add_slice |].
    unfold act, tadd, slice_sum, corners.
    cbn [fst snd data zeros map rsum fold_right].
    repeat match goal with
           | |- context [scatter zero_fn
                           (map (fun a => (corner_voxel 3 ?k a, volume_term 3 ?k a))
                                (reorder ?p colliding_slice)) (1, 1, 1)%Z] =>
               let Hv := fresh "Hv" in
               let Hc := fresh "Hc" in
               destruct (colliding_call p k) as [Hv _];
               pose proof (proj2 (colliding_call (snd (o k)) k)) as Hc;
               generalize dependent
                 (scatter zero_fn
                    (map (fun a => (corner_voxel 3 k a, volume_term 3 k a))
                         (reorder p colliding_slice)) (1, 1, 1)%Z);
               generalize dependent
                 (scatter zero_fn
                    (map (fun a => (corner_voxel 3 k a, counts_term 3 k a))
                         (reorder (snd (o k)) colliding_slice)) (1, 1, 1)%Z);
               intros
           end.
    repeat split; lra.
Qed.

(** ** Sums and means over a cube *)

Lemma rsum_add_const {A : Type} (f : A -> R) (c : R) (l : list A) :
  rsum (map (fun a => f a + c) l) = rsum (map f l) + INR (length l) * c.
Proof.
  induction l as [| a l IH]; cbn [map rsum fold_right length].
  - simpl. ring.
  - change (fold_right Rplus 0 ?x) with (rsum x). rewrite IH, S_INR. ring.
Qed.

Lemma rsum_scale_l {A : Type} (f : A -> R) (c : R) (l : list A) :
  rsum (map (fun a => c * f a) l) = c * rsum (map f l).
Proof.
  induction l as [| a l IH]; cbn [map rsum fold_right].
  - ring.
  - change (fold_right Rplus 0 ?x) with (rsum x). rewrite IH. ring.
Qed.



Lemma in_axis (n a : Z) : In a (axis n) <-> (0 <= a < n)%Z.
Proof.
  unfold axis. rewrite in_map_iff. split.
  - intros (k & <- & Hk). apply in_seq in Hk. lia.
  - intros H. exists (Z.to_nat a). split; [lia |]. apply in_seq. lia.
Qed.

Lemma in_indices (n : Z) (i : index) : In i (indices n) <-> in_cube n i = true.
Proof.
  destruct i as [[a b] c]. unfold indices, in_cube.
  rewrite !andb_true_iff, !Z.leb_le, !Z.ltb_lt, in_flat_map. split.
  - intros (a' & Ha & H). apply in_flat_map in H. destruct H as (b' & Hb & H).
    apply in_map_iff in H. destruct H as (c' & E & Hc). inversion E; subst.
    apply in_axis in Ha, Hb, Hc. lia.
  - intros H. exists a. split; [apply in_axis; lia |].
    apply in_flat_map. exists b. split; [apply in_axis; lia |].
    apply in_map_iff. exists c. split; [reflexivity | apply in_axis; lia].
Qed.

Lemma indices_nonempty (n : Z) : (0 < n)%Z -> indices n <> [].
Proof.
  intros H E. assert (Hin : In (0, 0, 0)%Z (indices n)).
  { apply in_indices. unfold in_cube.
    repeat (apply andb_true_intro; split);
      try apply Z.leb_le; try apply Z.ltb_lt; lia. }
  rewrite E in Hin. contradiction.
Qed.

Lemma numel_pos (n : Z) : (0 < n)%Z -> 0 < INR (length (indices n)).
Proof.
  intros H. apply lt_0_INR. pose proof (indices_nonempty n H) as Hne.
  destruct (indices n); [congruence | simpl; lia].
Qed.

Lemma checked_div_some (a b : R) : b <> 0 -> checked_div a b = Some (a / b).
Proof. intros H. unfold checked_div. destruct (Req_dec_T b 0); congruence. Qed.

Lemma checked_div_none (a : R) : checked_div a 0 = None.
Proof. unfold checked_div. destruct (Req_dec_T 0 0); congruence. Qed.

Lemma checked_div_scale (s a b : R) :
  s <> 0 -> checked_div (s * a) (s * b) = checked_div a b.
Proof.
  intros Hs. unfold checked_div.
  destruct (Req_dec_T b 0) as [-> | Hb].
  - rewrite Rmult_0_r. destruct (Req_dec_T 0 0); congruence.
  - destruct (Req_dec_T (s * b) 0) as [E | _].
    + apply Rmult_integral in E. tauto.
    + f_equal. field. tauto.
Qed.

Lemma mean_pos_side (t : tensor) :
  (0 < side t)%Z ->
  mean t = Some (tsum t / INR (length (indices (side t)))).
Proof.
  intros H. unfold mean. apply checked_div_some.
  pose proof (numel_pos _ H). lra.
Qed.


(** ** regularize_volume *)

Lemma tsum_shift (t : tensor) (c : R) :
  tsum (tmap (fun x => x + c) t)
  = tsum t + INR (length (indices (side t))) * c.
Proof. unfold tsum, tmap. cbn [side data]. apply rsum_add_const. Qed.


Lemma tsum_scale_l (t : tensor) (c : R) :
  tsum (tmap (fun x => c * x) t) = c * tsum t.
Proof. unfold tsum, tmap. cbn [side data]. apply rsum_scale_l. Qed.

Lemma mean_value (t : tensor) (m : R) :
  mean t = Some m ->
  INR (length (indices (side t))) <> 0
  /\ tsum t = m * INR (length (indices (side t))).
Proof.
  unfold mean, checked_div.
  destruct (Req_dec_T _ 0) as [E | E]; [discriminate |].
  intros H. inversion H. split; [assumption | field; assumption].
Qed.

Lemma regularized_counts_value (counts : tensor) (rw m : R) :
  mean counts = Some m -> m <> 0 -> 1 + rw <> 0 ->
  regularized_counts counts rw
  = Some (tmap (fun c => c * (m / (m * (1 + rw))))
               (tmap (fun c => c + rw * m) counts)).
Proof.
  intros Hm Hm0 Hrw. unfold regularized_counts. rewrite Hm. cbn [bind].
  destruct (mean_value _ _ Hm) as [HN Hs].
  assert (Hm' : mean (tmap (fun c => c + rw * m) counts) = Some (m * (1 + rw))).
  { unfold mean. cbn [side tmap]. rewrite checked_div_some by assumption.
    f_equal. rewrite tsum_shift, Hs. field. assumption. }
  rewrite Hm'. cbn [bind]. rewrite checked_div_some; [reflexivity |].
  intros E. apply Rmult_integral in E. tauto.
Qed.

Lemma tdiv_some (a b : tensor) :
  side a = side b ->
  (forall i, in_cube (side b) i = true -> data b i <> 0) ->
  tdiv a b = Some (mk_tensor (side a) (fun i => data a i / data b i)).
Proof.
  intros Hs Hnz. unfold tdiv. rewrite Hs, Z.eqb_refl. cbn [negb].
  replace (forallb _ _) with true; [reflexivity |].
  symmetry. apply forallb_forall. intros i Hi. apply in_indices in Hi.
  unfold nonzero. destruct (Req_dec_T (data b i) 0) as [E | _]; auto.
  now apply Hnz in E.
Qed.



(** Replaces [indices n] by its explicit list. *)
Ltac eval_indices n :=
  let l := eval vm_compute in (indices n) in
  change (indices n) with l.


(** ** Scaling volume and counts together *)

Lemma mean_tscale (s : R) (t : tensor) :
  mean (tscale s t) = m <- mean t ;; Some (s * m).
Proof.
  unfold mean, tscale. rewrite tsum_scale_l. cbn [side tmap].
  unfold checked_div. destruct (Req_dec_T _ 0); cbn [bind]; auto.
  f_equal. field. assumption.
Qed.

Lemma nonzero_scale (s x : R) : s <> 0 -> nonzero (s * x) = nonzero x.
Proof.
  intros Hs. unfold nonzero.
  destruct (Req_dec_T x 0) as [-> | Hx].
  - rewrite Rmult_0_r. destruct (Req_dec_T 0 0); congruence.
  - destruct (Req_dec_T (s * x) 0) as [E | _]; auto.
    apply Rmult_integral in E. tauto.
Qed.

Lemma in_cube_trim (n : Z) (i : index) :
  in_cube (Z.max 0 (n - 1)) i = true -> in_cube n i = true.
Proof.
  destruct i as [[a b] c]. unfold in_cube.
  rewrite !andb_true_iff, !Z.leb_le, !Z.ltb_lt. lia.
Qed.

Lemma tdiv_tscale (s : R) (a b : tensor) :
  s <> 0 ->
  match tdiv a b with
  | Some q => exists q', tdiv (tscale s a) (tscale s b) = Some q'
                         /\ trim q' = trim q
  | None => tdiv (tscale s a) (tscale s b) = None
  end.
Proof.
  intros Hs. unfold tdiv. cbn [side tscale tmap data].
  destruct (Z.eqb_spec (side a) (side b)) as [Hab | Hab]; cbn [negb]; auto.
  assert (E : forallb (fun i => nonzero (s * data b i)) (indices (side b))
              = forallb (fun i => nonzero (data b i)) (indices (side b))).
  { induction (indices (side b)) as [| i l IH]; cbn [forallb]; auto.
    now rewrite IH, nonzero_scale. }
  rewrite E. clear E.
  destruct (forallb (fun i => nonzero (data b i)) (indices (side b))) eqn:Hall;
    cbv beta iota; auto.
  eexists. split; [reflexivity |].
  unfold trim. cbn [side data]. f_equal. extensionality i.
  destruct (in_cube (Z.max 0 (side a - 1)) i) eqn:Hi; auto.
  rewrite forallb_forall in Hall.
  assert (Hb : nonzero (data b i) = true).
  { apply Hall, in_indices. rewrite <- Hab. now apply in_cube_trim. }
  unfold nonzero in Hb. destruct (Req_dec_T (data b i) 0); [discriminate |].
  field. tauto.
Qed.

(** C5: for every positive s, [regularize_volume] gives the same result on
    [s * volume] and [s * counts] as on [volume] and [counts]: the term
    [reg_weight * mean(counts)] scales with the counts and the common factor
    cancels in the division (both results are non-finite together). *)
Theorem regularize_volume_scale_invariant (ihtn_center : tensor -> tensor)
  (volume counts : tensor) (reg_weight s : R) :
  0 < s ->
  regularize_volume ihtn_center (tscale s volume) (tscale s counts) reg_weight
  = regularize_volume ihtn_center volume counts reg_weight.
Proof.
  intros Hs. assert (Hs0 : s <> 0) by lra.
  unfold regularize_volume, reg_volume, regularized_counts.
  rewrite mean_tscale. destruct (mean counts) as [m |]; cbn [bind]; auto.
  replace (tmap (fun c => c + reg_weight * (s * m)) (tscale s counts))
    with (tscale s (tmap (fun c => c + reg_weight * m) counts))
    by (unfold tscale, tmap; cbn [side data]; f_equal;
        extensionality i; ring).
  rewrite mean_tscale.
  destruct (mean (tmap (fun c => c + reg_weight * m) counts)) as [m0 |];
    cbn [bind]; auto.
  rewrite checked_div_scale by assumption.
  destruct (checked_div m m0) as [k |]; cbn [bind]; auto.
  replace (tmap (fun c => c * k)
                (tscale s (tmap (fun c => c + reg_weight * m) counts)))
    with (tscale s (tmap (fun c => c * k)
                         (tmap (fun c => c + reg_weight * m) counts)))
    by (unfold tscale, tmap; cbn [side data]; f_equal;
        extensionality i; ring).
  pose proof (tdiv_tscale s volume
                (tmap (fun c => c * k)
                      (tmap (fun c => c + reg_weight * m) counts)) Hs0) as H.
  destruct (tdiv volume _) as [q |].
  - destruct H as (q' & -> & Ht). cbn [bind]. now rewrite Ht.
  - rewrite H. reflexivity.
Qed.

Lemma regularize_volume_scale_invariant_witness :
  regularize_volume (fun t => t) (tscale 2 (zeros 3))
                    (tscale 2 (tmap (fun _ => 1) (zeros 3))) 1
  = regularize_volume (fun t => t) (zeros 3) (tmap (fun _ => 1) (zeros 3)) 1.
Proof.
  apply (regularize_volume_scale_invariant (fun t => t)). lra.
Defined.

(** ** Accumulated weights *)

Lemma weighted_zero : weighted 0 0.
Proof. unfold weighted. split; [lra | auto]. Qed.

Lemma weighted_plus (v c v' c' : R) :
  weighted v c -> weighted v' c' -> weighted (v + v') (c + c').
Proof.
  unfold weighted. intros [Hc Hv] [Hc' Hv']. split; [lra |].
  intros E. assert (c = 0) by lra. assert (c' = 0) by lra.
  rewrite Hv, Hv' by assumption. ring.
Qed.

Lemma weighted_terms (D : Z) (k : corner) (s : sample) :
  weighted (volume_term D k s) (counts_term D k s).
Proof.
  unfold weighted, volume_term, counts_term, corner_weight.
  pose proof (weight_range (corner_point D k s) (clip_coord D (coord s))) as Hw.
  pose proof (pow2_ge_0 (ctf_mul s)) as Hc. split; [nra |].
  intros E. apply Rmult_integral in E. destruct E as [E | E].
  - rewrite E. ring.
  - assert (E' : ctf_mul s * ctf_mul s = 0) by lra.
    apply Rmult_integral in E'. destruct E' as [E' | E']; rewrite E'; ring.
Qed.

Lemma osum_closed (P : delta -> Prop) :
  P dzero -> (forall a b, P a -> P b -> P (dplus a b)) ->
  forall (l : list (option delta)) (d : delta),
    (forall d', In (Some d') l -> P d') -> osum l = Some d -> P d.
Proof.
  intros H0 Hplus l. induction l as [| o l IH]; intros d Hl;
    cbn [osum fold_right].
  - intros H. inversion H. subst. exact H0.
  - change (fold_right oplus (Some dzero) l) with (osum l). unfold oplus.
    destruct o as [a |]; cbn [bind]; [| discriminate].
    destruct (osum l) as [b |]; cbn [bind]; [| discriminate].
    intros H. inversion H. apply Hplus.
    + apply Hl. now left.
    + apply IH; auto. intros d' Hd'. apply Hl. now right.
Qed.

Lemma norm_axis_nonneg (n a a' : Z) :
  (0 <= a)%Z -> norm_axis n a = Some a' -> a' = a.
Proof.
  intros Ha. unfold norm_axis.
  destruct ((0 <=? a) && (a <? n))%Z; [congruence |].
  assert (E : (a <? 0)%Z = false) by (apply Z.ltb_ge; lia).
  rewrite E, andb_false_r. discriminate.
Qed.

Lemma mapM_norm_nonneg (n : Z) (l idx : list index) :
  (forall a b c, In (a, b, c) l -> (0 <= a)%Z /\ (0 <= b)%Z /\ (0 <= c)%Z) ->
  mapM (norm_index n) l = Some idx -> idx = l.
Proof.
  revert idx. induction l as [| [[a b] c] l IH]; intros idx Hl; cbn [mapM].
  - intros H. now inversion H.
  - destruct (Hl a b c (or_introl eq_refl)) as (Ha & Hb & Hc).
    unfold norm_index at 1.
    destruct (norm_axis n a) as [a' |] eqn:Ea; cbn [bind]; [| discriminate].
    destruct (norm_axis n b) as [b' |] eqn:Eb; cbn [bind]; [| discriminate].
    destruct (norm_axis n c) as [c' |] eqn:Ec; cbn [bind]; [| discriminate].
    destruct (mapM (norm_index n) l) as [idx' |] eqn:El; cbn [bind];
      [| discriminate].
    intros H. inversion H.
    apply norm_axis_nonneg in Ea, Eb, Ec; auto. subst a' b' c'.
    f_equal. apply IH; auto. intros a0 b0 c0 Hin. apply Hl. now right.
Qed.

Lemma put_delta_value (p : write_order) (D n : Z) (k : corner)
  (term : sample -> R) (sl : slice) (d : index -> R) :
  (0 < D)%Z ->
  put_delta p n (corner_voxel D k) term sl = Some d ->
  d = scatter zero_fn
        (map (fun a => (corner_voxel D k a, term a)) (reorder p sl)).
Proof.
  intros Hpos. unfold put_delta.
  destruct (mapM (norm_index n) (map (corner_voxel D k) sl)) as [idx |] eqn:E;
    cbn [bind]; [| discriminate].
  intros H. inversion H. apply mapM_norm_nonneg in E.
  - subst idx. now rewrite combine_map, reorder_map.
  - intros a b c Hin. apply in_map_iff in Hin. destruct Hin as (s & Hs & _).
    pose proof (corner_voxel_range D k s (d2_nonneg D Hpos)) as Hr.
    rewrite Hs in Hr. lia.
Qed.

Lemma call_delta_value (D nv nc : Z) (o : orders) (sl : slice) (k : corner)
  (d : delta) :
  (0 < D)%Z -> call_delta D nv nc o sl k = Some d ->
  d = (scatter zero_fn
         (map (fun a => (corner_voxel D k a, volume_term D k a))
              (reorder (fst (o k)) sl)),
       scatter zero_fn
         (map (fun a => (corner_voxel D k a, counts_term D k a))
              (reorder (snd (o k)) sl))).
Proof.
  intros Hpos. unfold call_delta.
  destruct (put_delta _ nv _ (volume_term D k) sl) as [dv |] eqn:Ev;
    cbn [bind]; [| discriminate].
  destruct (put_delta _ nc _ (counts_term D k) sl) as [dc |] eqn:Ec;
    cbn [bind]; [| discriminate].
  intros H. inversion H.
  apply put_delta_value in Ev, Ec; auto. now subst.
Qed.

(** Whatever the write orders, no call lowers a count. *)
Lemma call_delta_counts (D nv nc : Z) (o : orders) (sl : slice) (k : corner)
  (d : delta) :
  (0 < D)%Z -> call_delta D nv nc o sl k = Some d -> forall i, 0 <= snd d i.
Proof.
  intros Hpos Hd i. apply call_delta_value in Hd; [| exact Hpos]. subst d.
  cbn [snd].
  destruct (scatter_cases
              (map (fun a => (corner_voxel D k a, counts_term D k a))
                   (reorder (snd (o k)) sl)) i zero_fn)
    as [-> | (v & Hin & ->)].
  - unfold zero_fn. lra.
  - apply in_map_iff in Hin. destruct Hin as (s & Hs & _).
    inversion Hs. apply (weighted_terms D k s).
Qed.

(** Without collisions the value and the weight a call adds to an entry are
    those of one sample. *)
Lemma call_delta_weighted (D nv nc : Z) (o : orders) (sl : slice) (k : corner)
  (d : delta) :
  (0 < D)%Z -> collision_free D sl ->
  call_delta D nv nc o sl k = Some d -> weighted_delta d.
Proof.
  intros Hpos Hcf Hd i. apply call_delta_value in Hd; [| exact Hpos]. subst d.
  cbn [fst snd].
  rewrite !scatter_collision_free by apply Hcf.
  destruct (written_or_not
              (map (fun a => (corner_voxel D k a, counts_term D k a)) sl) i)
    as [[v Hin] | Hno].
  - apply in_map_iff in Hin. destruct Hin as (s & Hs & Hin). inversion Hs.
    subst i v.
    rewrite (scatter_nodup _ (corner_voxel D k s) (volume_term D k s)),
            (scatter_nodup _ (corner_voxel D k s) (counts_term D k s)).
    + apply weighted_terms.
    + rewrite map_map. apply Hcf.
    + apply in_map_iff. now exists s.
    + rewrite map_map. apply Hcf.
    + apply in_map_iff. now exists s.
  - rewrite !scatter_miss.
    + apply weighted_zero.
    + exact Hno.
    + intros q Hq. apply in_map_iff in Hq. destruct Hq as (s & <- & Hs).
      cbn [fst]. apply (Hno (corner_voxel D k s, counts_term D k s)).
      apply in_map_iff. now exists s.
Qed.

Lemma slice_delta_counts (D nv nc : Z) (o : orders) (sl : slice) (d : delta) :
  (0 < D)%Z -> slice_delta D nv nc o sl = Some d -> forall i, 0 <= snd d i.
Proof.
  intros Hpos. unfold slice_delta.
  apply (osum_closed (fun d => forall i, 0 <= snd d i)).
  - intros i. cbn. unfold zero_fn. lra.
  - intros x y Hx Hy i. unfold dplus. cbn [snd].
    specialize (Hx i). specialize (Hy i). lra.
  - intros d' Hd'. apply in_map_iff in Hd'. destruct Hd' as (k & Hk & _).
    now apply (call_delta_counts D nv nc o sl k).
Qed.

Lemma weighted_delta_closed (l : list (option delta)) (d : delta) :
  (forall d', In (Some d') l -> weighted_delta d') ->
  osum l = Some d -> weighted_delta d.
Proof.
  apply (osum_closed weighted_delta).
  - intros i. apply weighted_zero.
  - intros x y Hx Hy i. unfold dplus. cbn [fst snd]. now apply weighted_plus.
Qed.

Lemma slice_delta_weighted (D nv nc : Z) (o : orders) (sl : slice) (d : delta) :
  (0 < D)%Z -> collision_free D sl ->
  slice_delta D nv nc o sl = Some d -> weighted_delta d.
Proof.
  intros Hpos Hcf. unfold slice_delta. apply weighted_delta_closed.
  intros d' Hd'. apply in_map_iff in Hd'. destruct Hd' as (k & Hk & _).
  now apply call_delta_weighted in Hk.
Qed.





Lemma in_enumerate {A : Type} (l : list A) (p : nat * A) :
  In p (enumerate l) -> In (snd p) l.
Proof.
  unfold enumerate. destruct p as [i a]. intros H.
  now apply in_combine_r in H.
Qed.

(** ** Flooring zero counts before regularization *)





(** ** Three images with one sample on the origin, grid size 3 *)

Lemma origin_counts (c : R) (i : index) :
  slice_sum 3 (fun _ => []) (counts_term 3) [lattice_sample 0 0 0 1 c] i
  = if index_eqb (1, 1, 1)%Z i then 8 * c ^ 2 else 0.
Proof.
  unfold slice_sum, corners. cbn [map rsum fold_right].
  assert (Hv : forall k, corner_voxel 3 k (lattice_sample 0 0 0 1 c) = (1, 1, 1)%Z).
  { intros k. rewrite corner_voxel_lattice by lattice_range. reflexivity. }
  assert (Ht : forall k, counts_term 3 k (lattice_sample 0 0 0 1 c) = c ^ 2).
  { intros k. apply counts_term_lattice; lattice_range. }
  rewrite !reorder_single. cbn [map].
  rewrite !Hv, !Ht. unfold scatter, upd, zero_fn. cbn [fold_left fst snd].
  destruct (index_eqb (1, 1, 1)%Z i); lra.
Qed.

Lemma origin_add_slice (o : orders) (vc : tensor * tensor) (c : R) :
  side (fst vc) = 3%Z -> side (snd vc) = 3%Z ->
  add_slice 3 o vc [lattice_sample 0 0 0 1 c] = Some (act vc (origin_delta c)).
Proof.
  intros Hv Hc. rewrite add_slice_delta, Hv, Hc.
  rewrite slice_delta_sum by (lia || reflexivity). unfold origin_delta.
  now rewrite (slice_sum_single 3 _ (fun _ => []) (volume_term 3)),
              (slice_sum_single 3 _ (fun _ => []) (counts_term 3)).
Qed.


Lemma origin_total_counts (i : index) :
  data (snd (full origin_streams)) i
  = if index_eqb (1, 1, 1)%Z i then 28 else 0.
Proof.
  unfold origin_streams, origin_delta, act, tadd.
  cbn [full fst snd data zeros]. rewrite !origin_counts.
  destruct (index_eqb (1, 1, 1)%Z i); cbn [pow]; lra.
Qed.

Lemma origin_floored (i : index) :
  data (floor_zeros (snd (full origin_streams))) i
  = if index_eqb (1, 1, 1)%Z i then 28 else 1.
Proof.
  unfold floor_zeros, tmap. cbn [data]. rewrite origin_total_counts.
  destruct (index_eqb (1, 1, 1)%Z i);
    match goal with |- context [Req_dec_T ?x 0] => destruct (Req_dec_T x 0) end;
    lra.
Qed.

Lemma origin_mean : mean (floor_zeros (snd (full origin_streams))) = Some 2.
Proof.
  unfold mean, tsum. rewrite (map_ext _ _ origin_floored).
  change (side (floor_zeros (snd (full origin_streams)))) with 3%Z.
  eval_indices 3%Z.
  cbn [map rsum fold_right length INR index_eqb Z.eqb Pos.eqb andb].
  rewrite checked_div_some by lra. f_equal. lra.
Qed.


(** ** One image with two samples on the origin *)





(** ** Resolution of a threshold *)

Lemma to_angstrom_value (Apix t : R) :
  t <> 0 -> to_angstrom Apix (Some t) = Some (Apix / t).
Proof.
  intros Ht. unfold to_angstrom. cbn [bind].
  rewrite checked_div_some by assumption. cbn [bind]. f_equal. field.
  assumption.
Qed.

(** C9: [main] turns the threshold [t] of a curve into [(1 / t) * Apix].
    The threshold of a crossing at shell [bin] of a grid of size [D] being
    the frequency [bin / D], the resolution is [Apix / (bin / D)], which is
    [(D / bin) * Apix], for the threshold of every curve of the dict; a
    crossing at bin 64 / 4 with pixel size 1 and grid size 64 gives 4. *)
Theorem threshold_to_angstrom (Apix D : R) (bins : dict R) :
  D <> 0 -> (forall l b, In (l, b) bins -> b <> 0) ->
  fsc_angs Apix (map (fun lb => (fst lb, Some (bin_frequency (snd lb) D))) bins)
  = Some (map (fun lb => (fst lb, Apix / (snd lb / D))) bins)
  /\ (forall l b, In (l, b) bins -> Apix / (b / D) = D / b * Apix)
  /\ to_angstrom 1 (Some (bin_frequency (64 / 4) 64)) = Some 4.
Proof.
  intros HD Hb. unfold bin_frequency. split; [| split].
  - unfold fsc_angs. induction bins as [| [l b] bins IH]; cbn [map mapM fst snd].
    + reflexivity.
    + assert (Hb0 : b <> 0) by (apply (Hb l); now left).
      rewrite to_angstrom_value.
      * cbn [bind]. rewrite IH; [reflexivity |].
        intros l' b' H. apply (Hb l'). now right.
      * intros E. apply Hb0.
        replace b with (b / D * D) by (field; assumption). rewrite E. ring.
  - intros l b H. specialize (Hb l b H). field. tauto.
  - rewrite to_angstrom_value by lra. f_equal. field.
Qed.

Lemma threshold_to_angstrom_witness :
  fsc_angs 1 (map (fun lb => (fst lb, Some (bin_frequency (snd lb) 64)))
                  [(NoMask, 8); (Tight, 16); (Corrected, 16)])
  = Some (map (fun lb => (fst lb, 1 / (snd lb / 64)))
              [(NoMask, 8); (Tight, 16); (Corrected, 16)])
  /\ (forall l b, In (l, b) [(NoMask, 8); (Tight, 16); (Corrected, 16)] ->
                  1 / (b / 64) = 64 / b * 1)
  /\ to_angstrom 1 (Some (bin_frequency (64 / 4) 64)) = Some 4.
Proof.
  apply (threshold_to_angstrom 1 64 [(NoMask, 8); (Tight, 16); (Corrected, 16)]).
  - lra.
  - intros l b [H | [H | [H | []]]]; inversion H; lra.
Defined.

(** ** The corrected curve *)

Lemma fsc_angs_none (Apix : R) (d : dict (option R)) (l : mask_label) :
  In (l, None) d -> fsc_angs Apix d = None.
Proof.
  intros H. unfold fsc_angs. now apply (mapM_none _ _ (l, None)).
Qed.

Section Corrected.

Variables curve mask : Type.
Variable calculate_fsc : tensor -> tensor -> option mask -> option R -> curve.
Variable get_fsc_threshold : curve -> R -> option R.
Variables spherical loose tight : mask.
Variable Apix : R.
Variables volume_half1 volume_half2 : tensor.

Let tight_curve : curve :=
  calculate_fsc volume_half1 volume_half2 (Some tight) None.

Let vals0 : dict curve :=
  fsc_vals0 curve mask calculate_fsc spherical loose tight
            volume_half1 volume_half2.

Let thresh0 : dict (option R) :=
  fsc_thresh0 curve mask calculate_fsc get_fsc_threshold spherical loose
              tight Apix volume_half1 volume_half2.

(** With a crossing [t] of the tight-mask curve, the corrected curve is
    recomputed under the tight mask with phase randomization 0.75 * t. *)
Lemma with_corrected_crossing (t : R) :
  get_fsc_threshold tight_curve Apix = Some t ->
  with_corrected curve mask calculate_fsc get_fsc_threshold spherical loose
                 tight Apix volume_half1 volume_half2
  = Some (vals0 ++ [(Corrected,
                     calculate_fsc volume_half1 volume_half2 (Some tight)
                                   (Some (0.75 * t)))],
          thresh0 ++ [(Corrected,
                       get_fsc_threshold
                         (calculate_fsc volume_half1 volume_half2
                                        (Some tight) (Some (0.75 * t)))
                         Apix)]).
Proof.
  intros H. unfold with_corrected.
  change (lookup Tight (fsc_thresh0 _ _ _ _ _ _ _ _ _ _))
    with (Some (get_fsc_threshold tight_curve Apix)).
  change (lookup Tight (fsc_vals0 _ _ _ _ _ _ _ _)) with (Some tight_curve).
  cbn [bind]. rewrite H. reflexivity.
Qed.

(** Without a crossing, the corrected curve and threshold are those of
    the tight mask. *)
Lemma with_corrected_fallback :
  get_fsc_threshold tight_curve Apix = None ->
  with_corrected curve mask calculate_fsc get_fsc_threshold spherical loose
                 tight Apix volume_half1 volume_half2
  = Some (vals0 ++ [(Corrected, tight_curve)], thresh0 ++ [(Corrected, None)]).
Proof.
  intros H. unfold with_corrected.
  change (lookup Tight (fsc_thresh0 _ _ _ _ _ _ _ _ _ _))
    with (Some (get_fsc_threshold tight_curve Apix)).
  change (lookup Tight (fsc_vals0 _ _ _ _ _ _ _ _)) with (Some tight_curve).
  cbn [bind]. rewrite H. reflexivity.
Qed.

(** C8, at the failing input: when the tight-mask curve has no crossing,
    the corrected entries are set to the tight-mask curve and to its
    missing threshold, and the conversion of the thresholds to Angstroms
    that follows then evaluates [1 / None] and raises. *)
Theorem gold_standard_without_crossing :
  get_fsc_threshold tight_curve Apix = None ->
  with_corrected curve mask calculate_fsc get_fsc_threshold spherical loose
                 tight Apix volume_half1 volume_half2
  = Some (vals0 ++ [(Corrected, tight_curve)], thresh0 ++ [(Corrected, None)])
  /\ gold_standard curve mask calculate_fsc get_fsc_threshold spherical loose
                   tight Apix volume_half1 volume_half2
     = None.
Proof.
  intros H. split; [now apply with_corrected_fallback |].
  unfold gold_standard. rewrite with_corrected_fallback by assumption.
  cbn [bind fst snd]. rewrite (fsc_angs_none _ _ Corrected); [reflexivity |].
  apply in_or_app. right. now left.
Qed.

End Corrected.

Lemma gold_standard_without_crossing_witness :
  gold_standard (option R) unit (fun _ _ _ _ => None) (fun c _ => c)
                tt tt tt 1 (zeros 3) (zeros 3)
  = None.
Proof.
  apply (gold_standard_without_crossing (option R) unit (fun _ _ _ _ => None)
           (fun c _ => c) tt tt tt 1 (zeros 3) (zeros 3)).
  reflexivity.
Defined.

(** * Further properties of the accumulation *)

(** ** What an insertion leaves alone *)

Lemma scatter_untouched (vox : sample -> index) (term : sample -> R)
  (sl : slice) (i : index) :
  ~ In i (map vox sl) ->
  scatter zero_fn (map (fun a => (vox a, term a)) sl) i = 0.
Proof.
  intros Hi. rewrite scatter_miss; [reflexivity |].
  intros p Hp. apply in_map_iff in Hp. destruct Hp as (a & <- & Ha).
  cbn [fst]. intros E. apply Hi. apply in_map_iff. now exists a.
Qed.

Lemma slice_delta_untouched (D nv nc : Z) (o : orders) (sl : slice)
  (d : delta) (i : index) :
  (0 < D)%Z -> ~ In i (accessed D sl) ->
  slice_delta D nv nc o sl = Some d -> fst d i = 0 /\ snd d i = 0.
Proof.
  intros Hpos Hi. unfold slice_delta.
  apply (osum_closed (fun d => fst d i = 0 /\ snd d i = 0)).
  - split; reflexivity.
  - intros x y [Ha1 Ha2] [Hb1 Hb2]. unfold dplus. cbn [fst snd]. split; lra.
  - intros d' Hd'. apply in_map_iff in Hd'. destruct Hd' as (k & Hk & Hin).
    apply call_delta_value in Hk; [| exact Hpos]. subst d'. cbn [fst snd].
    assert (Hk' : forall p, ~ In i (map (corner_voxel D k) (reorder p sl))).
    { intros p Hin'. apply Hi. unfold accessed. apply in_flat_map. exists k.
      split; [exact Hin |].
      apply in_map_iff in Hin'. destruct Hin' as (s & Hs & Hs').
      apply in_map_iff. exists s. split; [exact Hs |].
      now apply in_reorder in Hs'. }
    split; apply scatter_untouched; apply Hk'.
Qed.

(** X1: an insertion keeps the shape of both grids and changes no entry
    other than those its samples address, whatever the write orders. *)
Theorem add_slice_frame (D : Z) (o : orders) (vc g : tensor * tensor)
  (sl : slice) :
  (0 < D)%Z -> add_slice D o vc sl = Some g ->
  side (fst g) = side (fst vc) /\ side (snd g) = side (snd vc)
  /\ forall i, ~ In i (accessed D sl) ->
               data (fst g) i = data (fst vc) i
               /\ data (snd g) i = data (snd vc) i.
Proof.
  intros Hpos. rewrite add_slice_delta.
  destruct (slice_delta D (side (fst vc)) (side (snd vc)) o sl) as [d |] eqn:Hd;
    cbn [bind]; [| discriminate].
  intros H. inversion H. subst g. unfold act, tadd. cbn [fst snd side data].
  split; [reflexivity | split; [reflexivity |]].
  intros i Hi.
  destruct (slice_delta_untouched _ _ _ _ _ _ i Hpos Hi Hd) as [-> ->].
  split; ring.
Qed.

(** X2: whatever the write orders, an insertion never lowers a count; and
    for a slice without collisions, where it leaves a count unchanged it
    leaves the value unchanged too. *)
Theorem add_slice_counts_grow (D : Z) (o : orders) (vc g : tensor * tensor)
  (sl : slice) :
  (0 < D)%Z -> add_slice D o vc sl = Some g ->
  forall i, data (snd vc) i <= data (snd g) i
            /\ (collision_free D sl ->
                data (snd g) i = data (snd vc) i ->
                data (fst g) i = data (fst vc) i).
Proof.
  intros Hpos. rewrite add_slice_delta.
  destruct (slice_delta D (side (fst vc)) (side (snd vc)) o sl) as [d |] eqn:Hd;
    cbn [bind]; [| discriminate].
  intros H. inversion H. subst g. unfold act, tadd. cbn [fst snd side data].
  intros i. pose proof (slice_delta_counts _ _ _ _ _ _ Hpos Hd i) as Hc.
  split; [lra |]. intros Hcf E.
  destruct (slice_delta_weighted _ _ _ _ _ _ Hpos Hcf Hd i) as [_ Hv].
  rewrite Hv; lra.
Qed.

Lemma add_slice_frame_witness :
  side (fst (act (zeros 3, zeros 3) (origin_delta 1))) = 3%Z
  /\ side (snd (act (zeros 3, zeros 3) (origin_delta 1))) = 3%Z
  /\ forall i, ~ In i (accessed 3 [lattice_sample 0 0 0 1 1]) ->
               data (fst (act (zeros 3, zeros 3) (origin_delta 1))) i
               = data (fst (zeros 3, zeros 3)) i
               /\ data (snd (act (zeros 3, zeros 3) (origin_delta 1))) i
                  = data (snd (zeros 3, zeros 3)) i.
Proof.
  apply (add_slice_frame 3 in_order (zeros 3, zeros 3) _
           [lattice_sample 0 0 0 1 1]).
  - lia.
  - apply origin_add_slice; reflexivity.
Defined.

Lemma add_slice_counts_grow_witness :
  (0 < 3)%Z
  /\ forall i,
       data (snd (zeros 3, zeros 3)) i
       <= data (snd (act (zeros 3, zeros 3) (origin_delta 1))) i
       /\ (collision_free 3 [lattice_sample 0 0 0 1 1] ->
           data (snd (act (zeros 3, zeros 3) (origin_delta 1))) i
           = data (snd (zeros 3, zeros 3)) i ->
           data (fst (act (zeros 3, zeros 3) (origin_delta 1))) i
           = data (fst (zeros 3, zeros 3)) i).
Proof.
  split; [lia |].
  apply (add_slice_counts_grow 3 in_order (zeros 3, zeros 3) _
           [lattice_sample 0 0 0 1 1]).
  - lia.
  - apply origin_add_slice; reflexivity.
Defined.

(** ** The half-maps and the full map *)

Lemma evens_odds_perm (l : list Z) : Permutation l (evens l ++ odds l).
Proof.
  unfold evens, odds. induction l as [| a l IH]; cbn [filter app]; auto.
  destruct (a mod 2 =? 0)%Z; cbn [negb app].
  - now constructor.
  - now apply Permutation_cons_app.
Qed.

Lemma total_delta_perm (D nv nc : Z) (sls sls' : list (orders * slice)) :
  Permutation sls sls' -> total_delta D nv nc sls = total_delta D nv nc sls'.
Proof.
  intros H. unfold total_delta. apply osum_perm. now apply Permutation_map.
Qed.

Lemma total_delta_odd (D : Z) (sls : list (orders * slice)) :
  (0 < D)%Z -> Z.odd D = true -> exists d, total_delta D D D sls = Some d.
Proof.
  intros Hpos Hodd. unfold total_delta. apply osum_some.
  intros x Hx. apply in_map_iff in Hx. destruct Hx as (os & <- & _).
  now apply slice_delta_odd.
Qed.

Lemma insert_all_zeros_odd (D : Z) (sls : list (orders * slice)) :
  (0 < D)%Z -> Z.odd D = true ->
  exists d, total_delta D D D sls = Some d
            /\ insert_all D (zeros D, zeros D) sls
               = Some (act (zeros D, zeros D) d).
Proof.
  intros Hpos Hodd. destruct (total_delta_odd D sls Hpos Hodd) as [d Hd].
  exists d. split; [exact Hd |]. rewrite insert_all_delta. cbn [side zeros fst snd].
  now rewrite Hd.
Qed.

(** Without collisions the increment of a sequence of calls is that of its
    slices, whatever the write orders. *)
Lemma total_delta_collision_free (D : Z) (sls : list (orders * slice)) :
  (0 < D)%Z -> Z.odd D = true ->
  (forall os, In os sls -> collision_free D (snd os)) ->
  total_delta D D D sls
  = total_delta D D D (map (fun sl => (in_order, sl)) (map snd sls)).
Proof.
  intros Hpos Hodd Hcf. unfold total_delta. rewrite !map_map. cbn [fst snd].
  f_equal. apply map_ext_in. intros os Hos.
  apply slice_delta_collision_free; auto.
Qed.

(** X3: for an odd grid size the accumulation loop does not raise, whatever
    the write orders; and when no image has two samples written to one entry
    in one call, with half-maps the full stream is the entrywise sum of the
    two half streams, volume and counts alike (before flooring and
    regularization). *)
Theorem halves_sum_to_full (D : Z) (slice_of : Z -> slice)
  (os : nat -> orders * orders) (iterator : list Z) :
  (0 < D)%Z -> Z.odd D = true ->
  exists st,
    accumulate D slice_of true os iterator = Some st
    /\ ((forall ii, In ii iterator -> collision_free D (slice_of ii)) ->
        full st = pair_plus (half1 st) (half2 st)).
Proof.
  intros Hpos Hodd. rewrite accumulate_split.
  set (lf := map (call_full slice_of os) (enumerate iterator)).
  set (l1 := map (call_half slice_of os) (even_rounds (enumerate iterator))).
  set (l2 := map (call_half slice_of os) (odd_rounds (enumerate iterator))).
  destruct (insert_all_zeros_odd D lf Hpos Hodd) as (d & Hd & ->).
  destruct (insert_all_zeros_odd D l1 Hpos Hodd) as (d1 & Hd1 & ->).
  destruct (insert_all_zeros_odd D l2 Hpos Hodd) as (d2 & Hd2 & ->).
  cbn [bind]. eexists. split; [reflexivity |]. cbn [full half1 half2].
  intros Hcf. rewrite <- act_zeros_plus. f_equal.
  assert (E : Some d = Some (dplus d1 d2)); [| now inversion E].
  destruct (rounds_images 0 iterator) as (H0 & H1 & H2).
  fold (enumerate iterator) in H0, H1, H2.
  assert (Hin : forall (F : nat * Z -> orders * slice) rounds,
             (forall p, snd (F p) = slice_of (snd p)) ->
             (forall p, In p rounds -> In p (enumerate iterator)) ->
             forall x, In x (map F rounds) -> collision_free D (snd x)).
  { intros F rounds HF Hr x Hx. apply in_map_iff in Hx.
    destruct Hx as (p & <- & Hp). rewrite HF. apply Hcf.
    now apply in_enumerate, Hr. }
  change (Some (dplus d1 d2)) with (oplus (Some d1) (Some d2)).
  rewrite <- Hd, <- Hd1, <- Hd2.
  rewrite (total_delta_collision_free D lf), (total_delta_collision_free D l1),
          (total_delta_collision_free D l2); auto.
  - unfold lf, l1, l2. rewrite !map_map.
    unfold call_full, call_half. cbn [snd].
    rewrite <- (map_map snd (fun ii => (in_order, slice_of ii))
                        (enumerate iterator)).
    rewrite <- (map_map snd (fun ii => (in_order, slice_of ii))
                        (even_rounds (enumerate iterator))).
    rewrite <- (map_map snd (fun ii => (in_order, slice_of ii))
                        (odd_rounds (enumerate iterator))).
    rewrite H0, H1, H2.
    rewrite (total_delta_perm D D D _ _
               (Permutation_map (fun ii => (in_order, slice_of ii))
                                (evens_odds_perm iterator))).
    rewrite map_app, total_delta_app. reflexivity.
  - apply Hin; [reflexivity |]. intros p Hp. unfold odd_rounds in Hp.
    now apply filter_In in Hp.
  - apply Hin; [reflexivity |]. intros p Hp. unfold even_rounds in Hp.
    now apply filter_In in Hp.
  - apply Hin; [reflexivity | auto].
Qed.

Lemma halves_sum_to_full_witness :
  exists st,
    accumulate 3 origin_slices true (fun _ => (in_order, in_order))
               [0; 1; 2]%Z = Some st
    /\ ((forall ii, In ii [0; 1; 2]%Z -> collision_free 3 (origin_slices ii)) ->
        full st = pair_plus (half1 st) (half2 st)).
Proof.
  apply (halves_sum_to_full 3 origin_slices (fun _ => (in_order, in_order))
           [0; 1; 2]%Z); [lia | reflexivity].
Defined.

(** ** A slice with one sample *)

Lemma single_sample_increment (D : Z) (o : orders) (s : sample) (k0 : corner)
  (vc : tensor * tensor) :
  (0 < D)%Z -> Z.odd D = true -> side (fst vc) = D -> side (snd vc) = D ->
  add_slice D o vc [s]
  = Some (act vc (slice_sum D (fun _ => []) (volume_term D) [s],
                  slice_sum D (fun _ => []) (counts_term D) [s]))
  /\ slice_sum D (fun _ => []) (volume_term D) [s] (corner_voxel D k0 s)
     = 2 ^ integer_axes D s * volume_term D k0 s
  /\ slice_sum D (fun _ => []) (counts_term D) [s] (corner_voxel D k0 s)
     = 2 ^ integer_axes D s * counts_term D k0 s.
Proof.
  intros Hpos Hodd Hv Hc. split.
  - rewrite add_slice_delta, Hv, Hc, slice_delta_sum by assumption.
    now rewrite (slice_sum_single D _ (fun _ => []) (volume_term D)),
                (slice_sum_single D _ (fun _ => []) (counts_term D)).
  - unfold slice_sum. cbn [reorder hd tl insert_at].
    change [s] with ([] ++ s :: @nil sample).
    split;
      (erewrite map_ext;
       [| intros k; apply scatter_single; intros s' []]).
    + apply (corner_terms_sum D s k0
               (fun p => weight p (clip_coord D (coord s)) * ff s * ctf_mul s)).
    + apply (corner_terms_sum D s k0
               (fun p => weight p (clip_coord D (coord s)) * ctf_mul s ^ 2)).
Qed.

Lemma on_lattice (D : Z) (s : sample) (p : Z * Z * Z) (k : corner) :
  clip_coord D (coord s) = to_R3 p ->
  corner_point D k s = p /\ corner_weight D k s = 1
  /\ integer_axes D s = 3%nat.
Proof.
  intros H. unfold corner_weight, corner_point, integer_axes. rewrite H.
  destruct p as [[xi yi] zi], k as [[rx ry] rz]. unfold to_R3, corner_of.
  rewrite !round_IZR. split; [reflexivity |].
  split; [now apply weight_one_iff |].
  unfold integral. now rewrite !ZfloorZ, !Zceil_IZR, !Z.eqb_refl.
Qed.

(** X4: a sample whose three coordinates are at or beyond the upper bound
    floor(D/2), however far, is folded onto the last entry of the grid with
    weight 1 in all eight calls: that entry of the volume grows by
    8 * ff * ctf_mul and that entry of the counts by 8 * ctf_mul ^ 2. *)
Theorem far_sample_folds_to_corner (D : Z) (o : orders) (x y z v c : R)
  (vc : tensor * tensor) :
  (0 < D)%Z -> Z.odd D = true -> side (fst vc) = D -> side (snd vc) = D ->
  IZR (d2 D) <= x -> IZR (d2 D) <= y -> IZR (d2 D) <= z ->
  let last := ((D - 1)%Z, (D - 1)%Z, (D - 1)%Z) in
  exists g,
    add_slice D o vc [mk_sample (x, y, z) v c] = Some g
    /\ data (fst g) last = data (fst vc) last + 8 * (v * c)
    /\ data (snd g) last = data (snd vc) last + 8 * c ^ 2.
Proof.
  intros Hpos Hodd Hv Hc Hx Hy Hz last.
  pose proof (d2_nonneg D Hpos) as Hd. pose proof (d2_odd D Hpos Hodd) as HD.
  set (s := mk_sample (x, y, z) v c).
  assert (Hl : clip_coord D (coord s) = to_R3 (d2 D, d2 D, d2 D)).
  { unfold s, clip_coord, to_R3. cbn [coord].
    now rewrite !clip_above by assumption. }
  destruct (on_lattice D s _ (Floor, Floor, Floor) Hl) as (Hp & Hw & Hn).
  destruct (single_sample_increment D o s (Floor, Floor, Floor) vc
              Hpos Hodd Hv Hc) as (Hadd & Hsv & Hsc).
  assert (Hvox : corner_voxel D (Floor, Floor, Floor) s = last).
  { unfold corner_voxel. rewrite Hp. unfold voxel, last.
    f_equal; [f_equal |]; lia. }
  rewrite Hvox, Hn in Hsv, Hsc.
  assert (Ev : volume_term D (Floor, Floor, Floor) s = v * c).
  { unfold volume_term. rewrite Hw. unfold s. cbn [ff ctf_mul]. ring. }
  assert (Ec : counts_term D (Floor, Floor, Floor) s = c ^ 2).
  { unfold counts_term. rewrite Hw. unfold s. cbn [ctf_mul]. ring. }
  rewrite Ev in Hsv. rewrite Ec in Hsc.
  eexists. split; [exact Hadd |]. unfold act, tadd. cbn [fst snd data].
  rewrite Hsv, Hsc. split; ring.
Qed.

Lemma far_sample_folds_to_corner_witness :
  let last := ((3 - 1)%Z, (3 - 1)%Z, (3 - 1)%Z) in
  exists g,
    add_slice 3 in_order (zeros 3, zeros 3) [mk_sample (5, 1, 100) 2 1]
    = Some g
    /\ data (fst g) last = data (fst (zeros 3, zeros 3)) last + 8 * (2 * 1)
    /\ data (snd g) last = data (snd (zeros 3, zeros 3)) last + 8 * 1 ^ 2.
Proof.
  apply (far_sample_folds_to_corner 3 in_order 5 1 100 2 1 (zeros 3, zeros 3));
    try reflexivity; try lia;
    change (d2 3) with 1%Z; lra.
Defined.

(** X5: for a slice with one sample inserted into zero grids, at every entry
    that gets a positive weight the quotient of the volume by the counts is
    the CTF-corrected value ff / ctf_mul of the sample. *)
Theorem single_sample_quotient (D : Z) (o : orders) (s : sample)
  (k0 : corner) :
  (0 < D)%Z -> Z.odd D = true ->
  0 < corner_weight D k0 s -> ctf_mul s <> 0 ->
  exists g,
    add_slice D o (zeros D, zeros D) [s] = Some g
    /\ data (fst g) (corner_voxel D k0 s) / data (snd g) (corner_voxel D k0 s)
       = ff s / ctf_mul s.
Proof.
  intros Hpos Hodd Hw Hc.
  destruct (single_sample_increment D o s k0 (zeros D, zeros D) Hpos Hodd
              eq_refl eq_refl) as (Hadd & Hsv & Hsc).
  eexists. split; [exact Hadd |]. unfold act, tadd. cbn [fst snd data zeros].
  rewrite Hsv, Hsc. unfold volume_term, counts_term.
  assert (H2 : 2 ^ integer_axes D s <> 0) by (apply pow_nonzero; lra).
  field. repeat split; auto; lra.
Qed.

Lemma single_sample_quotient_witness :
  exists g,
    add_slice 3 in_order (zeros 3, zeros 3) [lattice_sample 0 0 0 3 2]
    = Some g
    /\ data (fst g) (corner_voxel 3 (Floor, Floor, Floor)
                                  (lattice_sample 0 0 0 3 2))
       / data (snd g) (corner_voxel 3 (Floor, Floor, Floor)
                                    (lattice_sample 0 0 0 3 2))
       = ff (lattice_sample 0 0 0 3 2) / ctf_mul (lattice_sample 0 0 0 3 2).
Proof.
  apply (single_sample_quotient 3 in_order (lattice_sample 0 0 0 3 2)
           (Floor, Floor, Floor)).
  - lia.
  - reflexivity.
  - rewrite corner_weight_lattice by lattice_range. lra.
  - cbn [lattice_sample ctf_mul]. lra.
Defined.

(** * Further properties of the regularization *)

Lemma rsum_const {A : Type} (c : R) (l : list A) :
  rsum (map (fun _ => c) l) = INR (length l) * c.
Proof.
  induction l as [| a l IH]; cbn [map rsum fold_right length].
  - simpl. ring.
  - change (fold_right Rplus 0 ?x) with (rsum x). rewrite IH, S_INR. ring.
Qed.

Lemma mean_uniform (t : tensor) (c0 : R) :
  (0 < side t)%Z ->
  (forall i, in_cube (side t) i = true -> data t i = c0) ->
  mean t = Some c0.
Proof.
  intros Hpos Hu. rewrite mean_pos_side by assumption. f_equal.
  unfold tsum. rewrite (map_ext_in _ (fun _ => c0)).
  - rewrite rsum_const. field. pose proof (numel_pos _ Hpos). lra.
  - intros i Hi. apply Hu. now apply in_indices.
Qed.

(** With the same count in every entry, the quotient is the volume over
    that count on the entries the trimming keeps. *)
Lemma reg_volume_uniform (volume counts : tensor) (reg_weight c0 : R) :
  (0 < side counts)%Z -> side volume = side counts ->
  (forall i, in_cube (side counts) i = true -> data counts i = c0) ->
  c0 <> 0 -> 1 + reg_weight <> 0 ->
  exists q,
    reg_volume volume counts reg_weight = Some q
    /\ trim q = trim (mk_tensor (side volume) (fun i => data volume i / c0)).
Proof.
  intros Hpos Hside Hu Hc0 Hrw.
  pose proof (mean_uniform counts c0 Hpos Hu) as Hm.
  unfold reg_volume.
  rewrite (regularized_counts_value counts reg_weight c0 Hm Hc0 Hrw).
  cbn [bind].
  assert (Hrc : forall i, in_cube (side counts) i = true ->
                data (tmap (fun x => x * (c0 / (c0 * (1 + reg_weight))))
                           (tmap (fun x => x + reg_weight * c0) counts)) i
                = c0).
  { intros i Hi. cbn [tmap data]. rewrite (Hu i Hi). field. tauto. }
  rewrite tdiv_some.
  - eexists. split; [reflexivity |]. unfold trim. cbn [side data].
    f_equal. extensionality i.
    destruct (in_cube (Z.max 0 (side volume - 1)) i) eqn:Hi; auto.
    rewrite Hrc; [reflexivity |]. rewrite <- Hside. now apply in_cube_trim.
  - exact Hside.
  - intros i Hi. cbn [side tmap] in Hi. now rewrite (Hrc i Hi).
Qed.

(** X6: with regularization weight 0 the rescaling factor is 1 and
    [regularize_volume] is the plain division of the volume by the counts,
    trimmed and transformed. *)
Theorem regularize_without_weight (ihtn_center : tensor -> tensor)
  (volume counts : tensor) (m : R) :
  side volume = side counts -> mean counts = Some m -> m <> 0 ->
  (forall i, in_cube (side counts) i = true -> data counts i <> 0) ->
  regularize_volume ihtn_center volume counts 0
  = Some (ihtn_center
            (trim (mk_tensor (side volume)
                             (fun i => data volume i / data counts i)))).
Proof.
  intros Hside Hm Hm0 Hnz. unfold regularize_volume, reg_volume.
  rewrite (regularized_counts_value counts 0 m Hm Hm0) by lra. cbn [bind].
  assert (Hrc : forall i,
             data (tmap (fun x => x * (m / (m * (1 + 0))))
                        (tmap (fun x => x + 0 * m) counts)) i
             = data counts i).
  { intros i. cbn [tmap data]. field. assumption. }
  rewrite tdiv_some.
  - cbn [bind].
    match goal with
    | |- Some (_ (trim ?a)) = Some (_ (trim ?b)) =>
        replace a with b; [reflexivity |]
    end.
    f_equal. extensionality i. now rewrite Hrc.
  - exact Hside.
  - intros i Hi. rewrite Hrc. now apply Hnz.
Qed.

Lemma regularize_without_weight_witness :
  regularize_volume (fun t => t) (zeros 2) (tmap (fun _ => 4) (zeros 2)) 0
  = Some (trim (mk_tensor (side (zeros 2))
                          (fun i => data (zeros 2) i
                                    / data (tmap (fun _ => 4) (zeros 2)) i))).
Proof.
  apply (regularize_without_weight (fun t => t) (zeros 2)
           (tmap (fun _ => 4) (zeros 2)) 4).
  - reflexivity.
  - apply mean_uniform; [reflexivity | reflexivity].
  - lra.
  - intros i _. cbn [tmap data]. lra.
Defined.

(** X7: when every count is the same non-zero value, the regularization
    weight has no effect: the result is the volume divided by that value,
    trimmed and transformed, for every weight other than -1. *)
Theorem regularize_uniform_counts (ihtn_center : tensor -> tensor)
  (volume counts : tensor) (reg_weight c0 : R) :
  (0 < side counts)%Z -> side volume = side counts ->
  (forall i, in_cube (side counts) i = true -> data counts i = c0) ->
  c0 <> 0 -> 1 + reg_weight <> 0 ->
  regularize_volume ihtn_center volume counts reg_weight
  = Some (ihtn_center
            (trim (mk_tensor (side volume) (fun i => data volume i / c0)))).
Proof.
  intros Hpos Hside Hu Hc0 Hrw. unfold regularize_volume.
  destruct (reg_volume_uniform volume counts reg_weight c0 Hpos Hside Hu Hc0 Hrw)
    as (q & -> & Hq).
  cbn [bind]. now rewrite Hq.
Qed.

Lemma regularize_uniform_counts_witness :
  regularize_volume (fun t => t) (zeros 3) (tmap (fun _ => 5) (zeros 3)) 7
  = Some (trim (mk_tensor (side (zeros 3)) (fun i => data (zeros 3) i / 5))).
Proof.
  apply (regularize_uniform_counts (fun t => t) (zeros 3)
           (tmap (fun _ => 5) (zeros 3)) 7 5).
  - reflexivity.
  - reflexivity.
  - intros i _. reflexivity.
  - lra.
  - lra.
Defined.

(** X8: for a weight that is not negative, regularization shrinks every
    count toward the mean: its distance to the mean is divided by
    [1 + reg_weight], so the regularized count lies between the count and
    the mean. *)
Theorem regularized_counts_shrink (counts : tensor) (reg_weight m : R) :
  mean counts = Some m -> m <> 0 -> 0 <= reg_weight ->
  exists rc,
    regularized_counts counts reg_weight = Some rc
    /\ forall i,
         data rc i - m = (data counts i - m) / (1 + reg_weight)
         /\ Rmin (data counts i) m <= data rc i <= Rmax (data counts i) m.
Proof.
  intros Hm Hm0 Hrw.
  rewrite (regularized_counts_value counts reg_weight m Hm Hm0) by lra.
  eexists. split; [reflexivity |]. intros i. cbn [tmap data].
  set (c := data counts i).
  assert (E : (c + reg_weight * m) * (m / (m * (1 + reg_weight)))
              = (c + reg_weight * m) / (1 + reg_weight)).
  { field. split; [lra | assumption]. }
  rewrite E.
  assert (Hd : (c + reg_weight * m) / (1 + reg_weight) - m
               = (c - m) / (1 + reg_weight)) by (field; lra).
  split; [exact Hd |].
  assert (Hinv : 0 < / (1 + reg_weight) <= 1).
  { split; [apply Rinv_0_lt_compat; lra |].
    rewrite <- Rinv_1. apply Rinv_le_contravar; lra. }
  assert (Hval : (c + reg_weight * m) / (1 + reg_weight)
                 = m + (c - m) * / (1 + reg_weight)) by (field; lra).
  rewrite Hval. unfold Rmin, Rmax. destruct (Rle_dec c m); nra.
Qed.

Lemma regularized_counts_shrink_witness :
  exists rc,
    regularized_counts (floor_zeros (snd (full origin_streams))) 1 = Some rc
    /\ forall i,
         data rc i - 2
         = (data (floor_zeros (snd (full origin_streams))) i - 2) / (1 + 1)
         /\ Rmin (data (floor_zeros (snd (full origin_streams))) i) 2
            <= data rc i
            <= Rmax (data (floor_zeros (snd (full origin_streams))) i) 2.
Proof.
  apply (regularized_counts_shrink _ 1 2); [exact origin_mean | lra | lra].
Defined.

(** X9: with the counts fixed, the quotient computed by [regularize_volume]
    before trimming is linear in the volume. *)
Theorem reg_volume_linear (v1 v2 counts : tensor) (reg_weight s : R) :
  side v1 = side v2 ->
  reg_volume (tplus (tscale s v1) v2) counts reg_weight
  = a <- reg_volume v1 counts reg_weight ;;
    b <- reg_volume v2 counts reg_weight ;;
    Some (tplus (tscale s a) b).
Proof.
  intros Hs. unfold reg_volume.
  destruct (regularized_counts counts reg_weight) as [rc |]; cbn [bind]; auto.
  unfold tdiv. cbn [side tplus tscale tmap]. rewrite <- Hs.
  destruct (negb (side v1 =? side rc)%Z); cbn [bind]; auto.
  destruct (forallb (fun i => nonzero (data rc i)) (indices (side rc)));
    cbn [bind]; auto.
  f_equal. unfold tplus, tscale, tmap. cbn [side data]. f_equal.
  extensionality i. unfold Rdiv. ring.
Qed.

Lemma reg_volume_linear_witness :
  reg_volume (tplus (tscale 2 (zeros 3)) (zeros 3))
             (tmap (fun _ => 1) (zeros 3)) 1
  = a <- reg_volume (zeros 3) (tmap (fun _ => 1) (zeros 3)) 1 ;;
    b <- reg_volume (zeros 3) (tmap (fun _ => 1) (zeros 3)) 1 ;;
    Some (tplus (tscale 2 a) b).
Proof.
  apply (reg_volume_linear (zeros 3) (zeros 3)). reflexivity.
Defined.

Lemma floor_zeros_of_zeros (D : Z) (i : index) :
  data (floor_zeros (zeros D)) i = 1.
Proof.
  unfold floor_zeros, tmap, zeros. cbn [data].
  destruct (Req_dec_T 0 0); congruence.
Qed.

Lemma trim_zero_quotient (D : Z) (c0 : R) :
  (0 < D)%Z ->
  trim (mk_tensor (side (zeros D)) (fun i => data (zeros D) i / c0))
  = zeros (D - 1).
Proof.
  intros Hpos. unfold trim, zeros. cbn [side data]. f_equal; [lia |].
  extensionality i. destruct (in_cube _ i); auto. unfold Rdiv. ring.
Qed.

(** X10: with no image to process, every count is zero and floored to 1,
    and for a regularization weight other than -1 the reconstruction is the
    transform of the zero grid of side D - 1, for the full map and for each
    half-map. *)
Theorem reconstruct_no_images (D : Z) (slice_of : Z -> slice)
  (half_maps : bool) (os : nat -> orders * orders)
  (ihtn_center : tensor -> tensor) (reg_weight : R) :
  (0 < D)%Z -> 1 + reg_weight <> 0 ->
  reconstruct D slice_of half_maps os ihtn_center reg_weight []
  = Some (ihtn_center (zeros (D - 1)),
          if half_maps
          then Some (ihtn_center (zeros (D - 1)), ihtn_center (zeros (D - 1)))
          else None).
Proof.
  intros Hpos Hrw. unfold reconstruct, accumulate, enumerate.
  cbn [length seq combine fold_left bind].
  unfold init, finish_pair, regularize_volume. cbn [full half1 half2 fst snd].
  assert (H1 : (1 : R) <> 0) by lra.
  destruct (reg_volume_uniform (zeros D) (floor_zeros (zeros D)) reg_weight 1
              Hpos eq_refl (fun i _ => floor_zeros_of_zeros D i) H1 Hrw)
    as (q & -> & Hq).
  cbn [bind]. rewrite Hq, trim_zero_quotient by assumption.
  destruct half_maps; reflexivity.
Qed.

Lemma reconstruct_no_images_witness :
  reconstruct 3 origin_slices true (fun _ => (in_order, in_order))
              (fun t => t) 1 []
  = Some (zeros (3 - 1), Some (zeros (3 - 1), zeros (3 - 1))).
Proof.
  apply (reconstruct_no_images 3 origin_slices true
           (fun _ => (in_order, in_order)) (fun t => t) 1); [lia | lra].
Defined.

(** * The images of a run and the FSC table *)

Lemma in_range (n ii : Z) : In ii (range n) <-> (0 <= ii < n)%Z.
Proof. apply in_axis. Qed.

Lemma range_nodup (n : Z) : NoDup (range n).
Proof.
  unfold range. generalize (seq_NoDup (Z.to_nat n) 0).
  induction (seq 0 (Z.to_nat n)) as [| a l IH]; intros H; cbn [map].
  - constructor.
  - inversion H as [| a' l' Ha Hl]. subst. constructor; [| now apply IH].
    rewrite in_map_iff. intros (b & Hb & Hin).
    apply Nat2Z.inj in Hb. now subst.
Qed.

Lemma in_first_images (first : option Z) (Nimg ii : Z) :
  In ii (first_images first Nimg)
  <-> (0 <= ii < Nimg)%Z
      /\ (forall n, first = Some n -> n <> 0%Z -> (ii < n)%Z).
Proof.
  unfold first_images. destruct first as [n |].
  - destruct (Z.eqb_spec n 0) as [-> | Hn]; rewrite in_range.
    + split; [| tauto]. intros H. split; [exact H |].
      intros n E Hn. inversion E. congruence.
    + split.
      * intros H. split; [lia |]. intros n' E _. inversion E. lia.
      * intros [H Hf]. specialize (Hf n eq_refl Hn). lia.
  - rewrite in_range. split; [| tauto]. intros H. split; [exact H |].
    intros n E. discriminate.
Qed.

(** X11: [main] visits every image index at most once; the indices visited
    are those of [0, Nimg) that are below [--first] when that option is
    given and not 0 ([--first 0] restricts nothing, a negative value leaves
    no image) and, with [--tilt], whose tilt number is in [0, ntilts). *)
Theorem image_iterator_indices (first : option Z) (Nimg : Z) (tilt : bool)
  (ntilts : Z) (tilt_numbers : Z -> Z) :
  NoDup (image_iterator first Nimg tilt ntilts tilt_numbers)
  /\ forall ii,
       In ii (image_iterator first Nimg tilt ntilts tilt_numbers)
       <-> (0 <= ii < Nimg)%Z
           /\ (forall n, first = Some n -> n <> 0%Z -> (ii < n)%Z)
           /\ (tilt = true -> (0 <= tilt_numbers ii < ntilts)%Z).
Proof.
  assert (Hnd : NoDup (first_images first Nimg)).
  { unfold first_images. destruct first as [n |]; [destruct (n =? 0)%Z |];
      apply range_nodup. }
  unfold image_iterator. destruct tilt; split.
  - now apply NoDup_filter.
  - intros ii. rewrite filter_In, in_first_images, andb_true_iff.
    rewrite Z.leb_le, Z.ltb_lt. split.
    + intros [[H1 H2] H3]. split; [exact H1 |]. split; [exact H2 |].
      intros _. exact H3.
    + intros (H1 & H2 & H3). split; [split; assumption |]. now apply H3.
  - exact Hnd.
  - intros ii. rewrite in_first_images. split.
    + intros [H1 H2]. split; [exact H1 |]. split; [exact H2 |]. discriminate.
    + intros (H1 & H2 & _). split; assumption.
Qed.

(** ** The table of resolutions *)

Lemma to_angstrom_zero (Apix : R) : to_angstrom Apix (Some 0) = None.
Proof. unfold to_angstrom. cbn [bind]. now rewrite checked_div_none. Qed.

Lemma fsc_angs_zero (Apix : R) (d : dict (option R)) (l : mask_label) :
  In (l, Some 0) d -> fsc_angs Apix d = None.
Proof.
  intros H. unfold fsc_angs. apply (mapM_none _ _ (l, Some 0)); auto.
  cbn [snd]. now rewrite to_angstrom_zero.
Qed.

Lemma fsc_angs_some (Apix : R) (d : dict (option R)) :
  (forall l t, In (l, t) d -> exists x, t = Some x /\ x <> 0) ->
  exists angs,
    fsc_angs Apix d = Some angs
    /\ map fst angs = map fst d
    /\ forall l x, In (l, Some x) d -> In (l, Apix / x) angs.
Proof.
  unfold fsc_angs. induction d as [| [l t] d IH]; intros H; cbn [mapM].
  - exists []. repeat split. intros l x [].
  - destruct (H l t (or_introl eq_refl)) as (x & -> & Hx).
    destruct IH as (angs & -> & Hk & Hin).
    { intros l' t' Hin. apply (H l' t'). now right. }
    cbn [snd fst]. rewrite to_angstrom_value by assumption. cbn [bind].
    exists ((l, Apix / x) :: angs). split; [reflexivity |].
    split; [cbn [map fst]; now rewrite Hk |].
    intros l' x' [E | Hin']; [inversion E; now left | right; now apply Hin].
Qed.

(** X12: the FSC part of [main] always gets as far as the five entries No
    Mask, Spherical, Loose, Tight, Corrected of the two dicts; the conversion
    to Angstroms then raises (or is not finite) as soon as one of the five
    thresholds is missing or zero, and otherwise gives [Apix / t] for the
    threshold [t] of each of the five curves. *)
Theorem gold_standard_outcome (curve mask : Type)
  (calculate_fsc : tensor -> tensor -> option mask -> option R -> curve)
  (get_fsc_threshold : curve -> R -> option R) (spherical loose tight : mask)
  (Apix : R) (volume_half1 volume_half2 : tensor) :
  exists vals thresh,
    with_corrected curve mask calculate_fsc get_fsc_threshold spherical loose
                   tight Apix volume_half1 volume_half2
    = Some (vals, thresh)
    /\ map fst vals = fsc_labels /\ map fst thresh = fsc_labels
    /\ ((exists l, In (l, None) thresh \/ In (l, Some 0) thresh) ->
        gold_standard curve mask calculate_fsc get_fsc_threshold spherical
                      loose tight Apix volume_half1 volume_half2
        = None)
    /\ ((forall l t, In (l, t) thresh -> exists x, t = Some x /\ x <> 0) ->
        exists angs,
          gold_standard curve mask calculate_fsc get_fsc_threshold spherical
                        loose tight Apix volume_half1 volume_half2
          = Some (vals, thresh, angs)
          /\ map fst angs = fsc_labels
          /\ forall l x, In (l, Some x) thresh -> In (l, Apix / x) angs).
Proof.
  assert (Hw : exists vals thresh,
             with_corrected curve mask calculate_fsc get_fsc_threshold
                            spherical loose tight Apix volume_half1 volume_half2
             = Some (vals, thresh)
             /\ map fst vals = fsc_labels /\ map fst thresh = fsc_labels).
  { destruct (get_fsc_threshold
                (calculate_fsc volume_half1 volume_half2 (Some tight) None)
                Apix) as [t |] eqn:Ht.
    - rewrite (with_corrected_crossing _ _ _ _ _ _ _ _ _ _ t Ht).
      eexists. eexists. split; [reflexivity |]. split; reflexivity.
    - rewrite (with_corrected_fallback _ _ _ _ _ _ _ _ _ _ Ht).
      eexists. eexists. split; [reflexivity |]. split; reflexivity. }
  destruct Hw as (vals & thresh & Hw & Hv & Ht).
  exists vals, thresh. split; [exact Hw |]. split; [exact Hv |].
  split; [exact Ht |]. unfold gold_standard. rewrite Hw. cbn [bind fst snd].
  split.
  - intros (l & [H | H]).
    + now rewrite (fsc_angs_none _ _ l H).
    + now rewrite (fsc_angs_zero _ _ l H).
  - intros H. destruct (fsc_angs_some Apix thresh H) as (angs & -> & Hk & Hin).
    exists angs. cbn [bind]. split; [reflexivity |].
    split; [now rewrite Hk | exact Hin].
Qed.

(** * Properties of cryodrgn/commands/bnb_het.py *)

Module BnbHetFacts.

Import BnbHet.

(** ** The KL term *)

Lemma kld_term_nonpos (mu logvar : R) : kld_term mu logvar <= 0.
Proof.
  unfold kld_term. pose proof (exp_ineq1_le logvar).
  pose proof (pow2_ge_0 mu). lra.
Qed.

Lemma kld_term_zero (mu logvar : R) :
  kld_term mu logvar = 0 <-> mu = 0 /\ logvar = 0.
Proof.
  unfold kld_term. split.
  - intros H. pose proof (exp_ineq1_le logvar) as He.
    pose proof (pow2_ge_0 mu) as Hm.
    assert (Hmu : mu * mu = 0) by lra.
    apply Rmult_integral in Hmu.
    assert (Hlv : logvar = 0).
    { destruct (Req_dec_T logvar 0) as [E | E]; auto.
      pose proof (exp_ineq1 logvar E). lra. }
    split; [tauto | exact Hlv].
  - intros [-> ->]. rewrite exp_0. ring.
Qed.

Lemma rsum_nonpos {A : Type} (f : A -> R) (l : list A) :
  (forall a, f a <= 0) ->
  rsum (map f l) <= 0
  /\ (rsum (map f l) = 0 <-> forall a, In a l -> f a = 0).
Proof.
  intros Hf. induction l as [| a l [IH1 IH2]]; cbn [map rsum fold_right].
  - split; [lra |]. split; [intros _ a [] | reflexivity].
  - change (fold_right Rplus 0 ?x) with (rsum x). specialize (Hf a) as Ha.
    split; [lra |]. split.
    + intros H a' [<- | Hin]; [lra |]. apply IH2; [lra | exact Hin].
    + intros H. rewrite (H a (or_introl eq_refl)).
      rewrite (proj2 IH2); [ring |]. intros a' Hin. apply H. now right.
Qed.

(** X13: on a non-empty batch the KL term of [train] is a number (no
    RuntimeError), it is never negative, and it is zero exactly when every
    mean and every log-variance is zero; so for a non-empty mask the loss is
    not below the reconstruction loss, without a KL target for a weight
    beta >= 0, and with a KL target for a weight [args.beta_control] >= 0.
    With a KL target the loss is not computed when the name [args] is not
    bound or its attribute is None, whatever the parameter. *)
Theorem kld_nonneg (z : list (R * R)) :
  z <> [] ->
  exists k,
    kld z = Some k /\ 0 <= k
    /\ (k = 0 <-> forall p, In p z -> fst p = 0 /\ snd p = 0)
    /\ forall gen_loss beta mask_sum,
         0 < mask_sum ->
         (forall args_beta_control,
             0 <= beta ->
             exists l,
               loss args_beta_control gen_loss beta k mask_sum None = Some l
               /\ gen_loss <= l)
         /\ (forall beta_control w,
                0 <= w ->
                exists l,
                  loss (Some (Some w)) gen_loss beta k mask_sum
                       (Some beta_control)
                  = Some l
                  /\ gen_loss <= l)
         /\ (forall beta_control,
                loss None gen_loss beta k mask_sum (Some beta_control) = None
                /\ loss (Some None) gen_loss beta k mask_sum
                        (Some beta_control)
                   = None).
Proof.
  intros Hne. unfold kld.
  assert (HN : 0 < INR (length z)).
  { apply lt_0_INR. destruct z; [congruence | simpl; lia]. }
  rewrite checked_div_some by lra. cbn [bind]. eexists. split; [reflexivity |].
  destruct (rsum_nonpos (fun p => kld_term (fst p) (snd p)) z) as [Hs Hz].
  { intros p. apply kld_term_nonpos. }
  set (S := rsum (map (fun p => kld_term (fst p) (snd p)) z)) in *.
  assert (Hq : S / INR (length z) <= 0).
  { unfold Rdiv. pose proof (Rinv_0_lt_compat _ HN). nra. }
  split; [lra |]. split.
  - split.
    + intros H. assert (HS : S = 0).
      { assert (E : S / INR (length z) = 0) by lra.
        replace S with (S / INR (length z) * INR (length z)) by (field; lra).
        rewrite E. ring. }
      intros p Hp. apply kld_term_zero. now apply (proj1 Hz HS).
    + intros H. assert (HS : S = 0).
      { apply Hz. intros p Hp. apply kld_term_zero. now apply H. }
      rewrite HS. unfold Rdiv. ring.
  - intros gen_loss beta mask_sum Hmask. unfold loss.
    pose proof (Rinv_0_lt_compat _ Hmask) as Hinv. split; [| split].
    + intros _ Hbeta. eexists. split; [reflexivity |]. unfold Rdiv.
      assert (0 <= beta * (-0.5 * (S * / INR (length z))) * / mask_sum).
      { apply Rmult_le_pos; [| lra]. apply Rmult_le_pos; [exact Hbeta |].
        unfold Rdiv in Hq. lra. }
      lra.
    + intros _ w Hw. eexists. split; [reflexivity |]. unfold Rdiv.
      assert (0 <= w * (beta - -0.5 * (S * / INR (length z))) ^ 2 * / mask_sum).
      { apply Rmult_le_pos; [| lra]. apply Rmult_le_pos; [exact Hw |].
        apply pow2_ge_0. }
      lra.
    + intros _. split; reflexivity.
Qed.

Lemma kld_nonneg_witness :
  exists k,
    kld [(1, 0); (0, 2)] = Some k /\ 0 <= k
    /\ (k = 0 <-> forall p, In p [(1, 0); (0, 2)] -> fst p = 0 /\ snd p = 0)
    /\ forall gen_loss beta mask_sum,
         0 < mask_sum ->
         (forall args_beta_control,
             0 <= beta ->
             exists l,
               loss args_beta_control gen_loss beta k mask_sum None = Some l
               /\ gen_loss <= l)
         /\ (forall beta_control w,
                0 <= w ->
                exists l,
                  loss (Some (Some w)) gen_loss beta k mask_sum
                       (Some beta_control)
                  = Some l
                  /\ gen_loss <= l)
         /\ (forall beta_control,
                loss None gen_loss beta k mask_sum (Some beta_control) = None
                /\ loss (Some None) gen_loss beta k mask_sum
                        (Some beta_control)
                   = None).
Proof.
  apply (kld_nonneg [(1, 0); (0, 2)]). discriminate.
Defined.

(** ** The resolution ramp *)

Lemma trunc_nonneg (x : R) : 0 <= x -> trunc x = Zfloor x /\ (0 <= trunc x)%Z.
Proof.
  intros H. unfold trunc. destruct (Rlt_dec x 0); [lra |].
  split; [reflexivity |]. now apply Zfloor_lub.
Qed.

Lemma ramp_fraction_nonneg (d r e : Z) :
  (0 <= d)%Z -> (0 < r)%Z -> (0 <= e)%Z -> 0 <= IZR e / IZR r * IZR d.
Proof.
  intros Hd Hr He. apply IZR_le in Hd, He. apply IZR_lt in Hr.
  apply Rmult_le_pos; [| exact Hd]. unfold Rdiv.
  apply Rmult_le_pos; [exact He |]. apply Rlt_le. now apply Rinv_0_lt_compat.
Qed.

(** X14: with 0 < l_ramp_epochs, an epoch >= 0 and l_start <= l_end, the
    ramp leaves Lmin at l_start, keeps Lmax between l_start and l_end, never
    lowers Lmax from one epoch to a later one, and has Lmax = l_end from
    epoch l_ramp_epochs on. *)
Theorem ramp_bounds (l_start l_end l_ramp_epochs epoch : Z) :
  (0 < l_ramp_epochs)%Z -> (0 <= epoch)%Z -> (l_start <= l_end)%Z ->
  Lmin l_start l_end l_ramp_epochs epoch = l_start
  /\ (l_start <= Lmax l_start l_end l_ramp_epochs epoch <= l_end)%Z
  /\ ((l_ramp_epochs <= epoch)%Z ->
      Lmax l_start l_end l_ramp_epochs epoch = l_end)
  /\ (forall epoch', (epoch <= epoch')%Z ->
        (Lmax l_start l_end l_ramp_epochs epoch
         <= Lmax l_start l_end l_ramp_epochs epoch')%Z).
Proof.
  intros Hr He Hl. unfold Lmin, Lmax, Lramp.
  assert (Hd : (0 <= l_end - l_start)%Z) by lia.
  pose proof (ramp_fraction_nonneg _ _ _ Hd Hr He) as Hx.
  destruct (trunc_nonneg _ Hx) as [Ht Ht0].
  split; [lia |]. split; [lia |]. split.
  - intros Hge. rewrite Ht.
    assert (Hfl : (l_end - l_start
                   <= Zfloor (IZR epoch / IZR l_ramp_epochs
                              * IZR (l_end - l_start)))%Z).
    { apply Zfloor_lub. apply IZR_le in Hd, Hge. apply IZR_lt in Hr.
      assert (1 <= IZR epoch / IZR l_ramp_epochs).
      { apply Rmult_le_reg_r with (IZR l_ramp_epochs); [lra |].
        unfold Rdiv. rewrite Rmult_assoc, Rinv_l by lra. lra. }
      nra. }
    lia.
  - intros epoch' Hee.
    assert (He' : (0 <= epoch')%Z) by lia.
    pose proof (ramp_fraction_nonneg _ _ _ Hd Hr He') as Hx'.
    destruct (trunc_nonneg _ Hx') as [Ht' _]. rewrite Ht, Ht'.
    assert (Hmono : (Zfloor (IZR epoch / IZR l_ramp_epochs
                             * IZR (l_end - l_start))
                     <= Zfloor (IZR epoch' / IZR l_ramp_epochs
                                * IZR (l_end - l_start)))%Z).
    { apply Zfloor_le. apply IZR_le in Hd, Hee. apply IZR_lt in Hr.
      apply Rmult_le_compat_r; [lra |]. unfold Rdiv.
      apply Rmult_le_compat_r; [| lra].
      apply Rlt_le. now apply Rinv_0_lt_compat. }
    lia.
Qed.

Lemma ramp_bounds_witness :
  Lmin 12 20 5 3 = 12%Z
  /\ (12 <= Lmax 12 20 5 3 <= 20)%Z
  /\ ((5 <= 3)%Z -> Lmax 12 20 5 3 = 20%Z)
  /\ (forall epoch', (3 <= epoch')%Z -> (Lmax 12 20 5 3 <= Lmax 12 20 5 epoch')%Z).
Proof.
  apply (ramp_bounds 12 20 5 3); lia.
Defined.

(** ** The pretraining loop *)

Lemma one_pass_bounds (pretrain M : Z) (sizes : list Z) :
  (0 <= M)%Z -> (forall b, In b sizes -> (0 < b <= M)%Z) ->
  forall g, (g <= pretrain)%Z ->
            (g <= one_pass pretrain sizes g <= pretrain + M)%Z
            /\ (sizes <> [] -> (g < one_pass pretrain sizes g)%Z).
Proof.
  intros HM. induction sizes as [| b rest IH]; intros Hb g Hg; cbn [one_pass].
  - split; [lia | congruence].
  - pose proof (Hb b (or_introl eq_refl)) as Hb0.
    destruct (Z.ltb_spec pretrain (g + b)) as [Hlt | Hge].
    + split; [lia |]. intros _. lia.
    + destruct (IH (fun b' H => Hb b' (or_intror H)) (g + b)%Z Hge) as [H1 _].
      split; [lia |]. intros _. lia.
Qed.

Lemma pretrain_loop_ends (pretrain M : Z) (sizes : list Z) :
  (0 <= M)%Z -> sizes <> [] -> (forall b, In b sizes -> (0 < b <= M)%Z) ->
  forall (fuel : nat) (g : Z),
    (Z.max 0 (pretrain - g) < Z.of_nat fuel)%Z ->
    exists g',
      pretrain_loop fuel pretrain sizes g = Some g'
      /\ (pretrain <= g')%Z
      /\ ((pretrain <= g)%Z -> g' = g)
      /\ ((g < pretrain)%Z -> (g' <= pretrain + M)%Z).
Proof.
  intros HM Hne Hb. induction fuel as [| fuel IH]; intros g Hf.
  - lia.
  - cbn [pretrain_loop]. destruct (Z.ltb_spec g pretrain) as [Hlt | Hge].
    + destruct (one_pass_bounds pretrain M sizes HM Hb g) as [H1 H2]; [lia |].
      specialize (H2 Hne).
      destruct (IH (one_pass pretrain sizes g)) as (g' & Hg' & Hp & Hs & Hl);
        [lia |].
      exists g'. split; [exact Hg' |]. split; [exact Hp |].
      split; [lia |]. intros _.
      destruct (Z_lt_le_dec (one_pass pretrain sizes g) pretrain) as [Hc | Hc].
      * now apply Hl.
      * rewrite (Hs Hc). lia.
    + exists g. split; [reflexivity |]. split; [lia |].
      split; [reflexivity | lia].
Qed.

(** X15: when every pass of the data loader has at least one batch and
    every batch has between 1 and M images, the pretraining loop ends; it runs
    no batch when [pretrain <= 0], and otherwise stops with at least
    [pretrain] images used and at most M more: a batch that brings the
    count to exactly [pretrain] inside a pass does not stop the pass. *)
Theorem pretrain_loop_count (pretrain M : Z) (sizes : list Z) :
  (0 <= M)%Z -> sizes <> [] -> (forall b, In b sizes -> (0 < b <= M)%Z) ->
  exists fuel global_it,
    pretrain_loop fuel pretrain sizes 0 = Some global_it
    /\ ((pretrain <= 0)%Z -> global_it = 0%Z)
    /\ ((0 < pretrain)%Z -> (pretrain <= global_it <= pretrain + M)%Z)
    /\ (forall b1 b2 rest,
          sizes = b1 :: b2 :: rest -> b1 = pretrain ->
          global_it = (pretrain + b2)%Z).
Proof.
  intros HM Hne Hb.
  destruct (pretrain_loop_ends pretrain M sizes HM Hne Hb
              (S (Z.to_nat pretrain)) 0%Z) as (g & Hg & Hp & Hs & Hl);
    [lia |].
  exists (S (Z.to_nat pretrain)), g. split; [exact Hg |].
  split; [exact Hs |]. split; [intros H; split; [exact Hp | now apply Hl] |].
  intros b1 b2 rest -> <-.
  pose proof (Hb b1 (or_introl eq_refl)) as Hb1.
  pose proof (Hb b2 (or_intror (or_introl eq_refl))) as Hb2.
  cbn [pretrain_loop] in Hg.
  destruct (Z.ltb_spec 0 b1) as [_ | Hc]; [| lia].
  cbn [one_pass] in Hg. rewrite Z.add_0_l in Hg.
  rewrite Z.ltb_irrefl in Hg.
  destruct (Z.ltb_spec b1 (b1 + b2)) as [_ | Hc]; [| lia].
  destruct (Z.to_nat b1) as [| n] eqn:En; [lia |].
  cbn [pretrain_loop] in Hg.
  destruct (Z.ltb_spec (b1 + b2) b1) as [Hc | _]; [lia |].
  now inversion Hg.
Qed.

Lemma pretrain_loop_count_witness :
  exists fuel global_it,
    pretrain_loop fuel 10 [10; 10; 4]%Z 0 = Some global_it
    /\ ((10 <= 0)%Z -> global_it = 0%Z)
    /\ ((0 < 10)%Z -> (10 <= global_it <= 10 + 10)%Z)
    /\ (forall b1 b2 rest,
          [10; 10; 4]%Z = b1 :: b2 :: rest -> b1 = 10%Z ->
          global_it = (10 + b2)%Z).
Proof.
  apply (pretrain_loop_count 10 10 [10; 10; 4]%Z).
  - lia.
  - discriminate.
  - intros b [<- | [<- | [<- | []]]]; lia.
Defined.

(** ** sort_poses *)

Lemma insert_by_key_perm (p : Z * nat) (l : list (Z * nat)) :
  Permutation (insert_by_key p l) (p :: l).
Proof.
  induction l as [| q l IH]; cbn [insert_by_key]; [reflexivity |].
  destruct (fst p <=? fst q)%Z; [reflexivity |].
  eapply perm_trans; [apply perm_skip, IH | apply perm_swap].
Qed.

Lemma sort_by_key_perm (l : list (Z * nat)) : Permutation (sort_by_key l) l.
Proof.
  unfold sort_by_key. induction l as [| p l IH]; cbn [fold_right].
  - constructor.
  - eapply perm_trans; [apply insert_by_key_perm | now apply perm_skip].
Qed.

Lemma insert_by_key_sorted (p : Z * nat) (l : list (Z * nat)) :
  StronglySorted Z.le (map fst l) ->
  StronglySorted Z.le (map fst (insert_by_key p l)).
Proof.
  induction l as [| q l IH]; intros Hs; cbn [insert_by_key].
  - cbn [map]. constructor; constructor.
  - cbn [map] in Hs. apply StronglySorted_inv in Hs as [Hs Hq].
    destruct (Z.leb_spec (fst p) (fst q)) as [Hle | Hgt]; cbn [map].
    + constructor.
      * constructor; assumption.
      * constructor; [exact Hle |].
        eapply Forall_impl; [| exact Hq]. intros a Ha. lia.
    + constructor; [now apply IH |].
      eapply Permutation_Forall.
      * apply Permutation_sym, (Permutation_map fst), insert_by_key_perm.
      * cbn [map]. constructor; [lia | exact Hq].
Qed.

Lemma sort_by_key_sorted (l : list (Z * nat)) :
  StronglySorted Z.le (map fst (sort_by_key l)).
Proof.
  unfold sort_by_key. induction l as [| p l IH]; cbn [fold_right].
  - constructor.
  - now apply insert_by_key_sorted.
Qed.

(** Two sorted lists with the same entries are the same list. *)
Lemma sorted_perm_eq (l l' : list Z) :
  StronglySorted Z.le l -> StronglySorted Z.le l' -> Permutation l l' ->
  l = l'.
Proof.
  revert l'. induction l as [| a l IH]; intros l' Hs Hs' Hp.
  - now apply Permutation_nil in Hp.
  - destruct l' as [| b l'].
    + apply Permutation_sym, Permutation_nil in Hp. discriminate.
    + apply StronglySorted_inv in Hs as [Hs Ha].
      apply StronglySorted_inv in Hs' as [Hs' Hb].
      assert (Hab : (a <= b)%Z).
      { assert (Hin : In b (a :: l))
          by (eapply Permutation_in; [apply Permutation_sym, Hp | now left]).
        destruct Hin as [-> | Hin]; [lia |].
        rewrite Forall_forall in Ha. now apply Ha. }
      assert (Hba : (b <= a)%Z).
      { assert (Hin : In a (b :: l'))
          by (eapply Permutation_in; [apply Hp | now left]).
        destruct Hin as [-> | Hin]; [lia |].
        rewrite Forall_forall in Hb. now apply Hb. }
      assert (a = b) by lia. subst b.
      f_equal. apply IH; [assumption | assumption |].
      now apply Permutation_cons_inv in Hp.
Qed.

Lemma seq_sorted (s n : nat) :
  StronglySorted Z.le (map Z.of_nat (seq s n))
  /\ Forall (Z.le (Z.of_nat s)) (map Z.of_nat (seq s n)).
Proof.
  revert s. induction n as [| n IH]; intros s; cbn [seq map].
  - split; constructor.
  - destruct (IH (S s)) as [H1 H2].
    assert (H3 : Forall (Z.le (Z.of_nat s)) (map Z.of_nat (seq (S s) n))).
    { eapply Forall_impl; [| exact H2]. intros a Ha. lia. }
    split; constructor; try assumption. lia.
Qed.

Lemma map_fst_combine_seq (ind : list Z) (s : nat) :
  map fst (combine ind (seq s (length ind))) = ind.
Proof.
  revert s. induction ind as [| k ind IH]; intros s; cbn; [reflexivity |].
  now rewrite IH.
Qed.

Lemma mapM_cons_some {A B : Type} (f : A -> option B) (a : A) (l : list A)
  (r : list B) :
  mapM f (a :: l) = Some r ->
  exists b bs, f a = Some b /\ mapM f l = Some bs /\ r = b :: bs.
Proof.
  cbn [mapM]. destruct (f a) as [b |]; cbn [bind]; [| discriminate].
  destruct (mapM f l) as [bs |]; cbn [bind]; [| discriminate].
  intros [= <-]. now exists b, bs.
Qed.

Lemma mapM_perm {A B : Type} (f : A -> option B) (l l' : list A) :
  Permutation l l' ->
  forall r, mapM f l = Some r ->
            exists r', mapM f l' = Some r' /\ Permutation r r'.
Proof.
  induction 1 as [| x l l' Hp IH | x y l | l l' l'' Hp1 IH1 Hp2 IH2];
    intros r Hr.
  - exists r. split; [exact Hr | reflexivity].
  - apply mapM_cons_some in Hr as (b & bs & Hb & Hbs & ->).
    destruct (IH bs Hbs) as (r' & Hr' & Hpr).
    exists (b :: r'). cbn [mapM]. rewrite Hb, Hr'. cbn [bind].
    split; [reflexivity | now apply perm_skip].
  - apply mapM_cons_some in Hr as (b & bs & Hb & Hbs & ->).
    apply mapM_cons_some in Hbs as (c & cs & Hc & Hcs & ->).
    exists (c :: b :: cs). cbn [mapM]. rewrite Hb, Hc, Hcs. cbn [bind].
    split; [reflexivity | apply perm_swap].
  - destruct (IH1 r Hr) as (r1 & Hr1 & Hp1').
    destruct (IH2 r1 Hr1) as (r2 & Hr2 & Hp2').
    exists r2. split; [exact Hr2 | now apply perm_trans with r1].
Qed.

(** Rows paired with their keys, taken at the positions of [seq]. *)
Lemma mapM_keyed_rows {A : Type} (ind : list Z) :
  forall (pre a : list A),
    length a = length ind ->
    mapM (fun p : Z * nat =>
            x <- nth_error (pre ++ a) (snd p) ;; Some (fst p, x))
         (combine ind (seq (length pre) (length ind)))
    = Some (combine ind a).
Proof.
  induction ind as [| k ind IH]; intros pre a Hl.
  - reflexivity.
  - destruct a as [| x a]; [discriminate |].
    cbn [length seq combine mapM snd fst].
    rewrite nth_error_app2, Nat.sub_diag by lia. cbn [nth_error bind].
    specialize (IH (pre ++ [x]) a).
    rewrite <- app_assoc, length_app in IH. cbn [app length] in IH.
    rewrite Nat.add_1_r in IH. rewrite IH by (cbn in Hl; lia).
    reflexivity.
Qed.

Lemma mapM_keyed_take {A : Type} (a : list A) (sp : list (Z * nat))
  (r' : list (Z * A)) :
  mapM (fun p : Z * nat => x <- nth_error a (snd p) ;; Some (fst p, x)) sp
  = Some r' ->
  exists r, take a (map snd sp) = Some r
            /\ r' = combine (map fst sp) r
            /\ length r = length sp.
Proof.
  unfold take. revert r'. induction sp as [| p sp IH]; intros r' Hr.
  - injection Hr as <-. now exists [].
  - apply mapM_cons_some in Hr as (b & bs & Hb & Hbs & ->).
    destruct (IH bs Hbs) as (r & Hr & -> & Hlen).
    destruct (nth_error a (snd p)) as [x |] eqn:Ex; [| discriminate].
    cbn [bind] in Hb. injection Hb as <-.
    exists (x :: r). cbn [map mapM]. rewrite Ex, Hr. cbn [bind].
    split; [reflexivity |]. split; [reflexivity |]. cbn [length]. lia.
Qed.

(** [a[np.argsort(ind)]] for an array with one row per entry of [ind]:
    the rows with their keys, rearranged into the order of the keys. *)
Lemma take_argsort_rows {A : Type} (ind : list Z) (a : list A) :
  length a = length ind ->
  exists r,
    take a (argsort ind) = Some r
    /\ length r = length ind
    /\ Permutation
         (combine (map fst (sort_by_key (combine ind (seq 0 (length ind))))) r)
         (combine ind a).
Proof.
  intros Hl. unfold argsort.
  pose proof (mapM_keyed_rows ind [] a Hl) as Hrows.
  cbn [app length] in Hrows.
  destruct (mapM_perm _ _ _
              (Permutation_sym
                 (sort_by_key_perm (combine ind (seq 0 (length ind)))))
              _ Hrows) as (r' & Hr' & Hp).
  destruct (mapM_keyed_take a _ r' Hr') as (r & Hr & -> & Hlen).
  exists r. split; [exact Hr |]. split.
  - rewrite Hlen.
    rewrite (Permutation_length
               (sort_by_key_perm (combine ind (seq 0 (length ind))))).
    rewrite length_combine, length_seq. lia.
  - now apply Permutation_sym.
Qed.

Lemma sorted_keys_perm (ind : list Z) :
  Permutation (map fst (sort_by_key (combine ind (seq 0 (length ind))))) ind.
Proof.
  eapply perm_trans; [apply (Permutation_map fst), sort_by_key_perm |].
  now rewrite map_fst_combine_seq.
Qed.

Lemma nth_error_combine {A B : Type} (a : list A) (b : list B) (i : nat) :
  nth_error (combine a b) i
  = match nth_error a i, nth_error b i with
    | Some x, Some y => Some (x, y)
    | _, _ => None
    end.
Proof.
  revert b i. induction a as [| x a IH]; intros b i.
  - cbn [combine]. now destruct i.
  - destruct b as [| y b]; cbn [combine].
    + destruct i as [| i]; cbn [nth_error]; [reflexivity |].
      now destruct (nth_error a i).
    + destruct i as [| i]; cbn [nth_error]; [reflexivity | apply IH].
Qed.

Lemma take_combine {A B : Type} (a : list A) (b : list B) (idx : list nat)
  (ra : list A) (rb : list B) :
  take a idx = Some ra -> take b idx = Some rb ->
  take (combine a b) idx = Some (combine ra rb).
Proof.
  unfold take. revert ra rb. induction idx as [| i idx IH]; intros ra rb Ha Hb.
  - injection Ha as <-. injection Hb as <-. reflexivity.
  - apply mapM_cons_some in Ha as (x & xs & Hx & Hxs & ->).
    apply mapM_cons_some in Hb as (y & ys & Hy & Hys & ->).
    cbn [mapM]. rewrite nth_error_combine, Hx, Hy, (IH xs ys Hxs Hys).
    reflexivity.
Qed.

Lemma nth_error_in_combine {A B : Type} (a : list A) (b : list B) (k : nat)
  (x : A) (y : B) :
  nth_error a k = Some x -> nth_error b k = Some y -> In (x, y) (combine a b).
Proof.
  intros Hx Hy. apply (nth_error_In _ k).
  now rewrite nth_error_combine, Hx, Hy.
Qed.

Lemma in_combine_seq {A : Type} (n : nat) :
  forall (s i : nat) (r : list A) (x : A),
    In (Z.of_nat i, x) (combine (map Z.of_nat (seq s n)) r) ->
    exists j, i = (s + j)%nat /\ nth_error r j = Some x.
Proof.
  induction n as [| n IH]; intros s i r x Hin; cbn [seq map combine] in Hin.
  - destruct Hin.
  - destruct r as [| y r]; [destruct Hin |].
    destruct Hin as [Heq | Hin].
    + injection Heq as Hs ->. exists 0%nat. split; [lia | reflexivity].
    + destruct (IH (S s) i r x Hin) as (j & -> & Hj).
      exists (S j). split; [lia | exact Hj].
Qed.

(** When [ind] holds every index below N once, row [ind[k]] of
    [a[np.argsort(ind)]] is row [k] of [a]. *)
Lemma take_argsort_lookup {A : Type} (ind : list Z) (a : list A) (N : nat) :
  length a = length ind -> Permutation ind (map Z.of_nat (seq 0 N)) ->
  exists r,
    take a (argsort ind) = Some r
    /\ length r = length ind
    /\ forall k i, nth_error ind k = Some (Z.of_nat i) ->
                   nth_error r i = nth_error a k.
Proof.
  intros Hl Hp.
  destruct (take_argsort_rows ind a Hl) as (r & Hr & Hlen & Hperm).
  exists r. split; [exact Hr |]. split; [exact Hlen |].
  intros k i Hk.
  assert (Hkeys : map fst (sort_by_key (combine ind (seq 0 (length ind))))
                  = map Z.of_nat (seq 0 N)).
  { apply sorted_perm_eq.
    - apply sort_by_key_sorted.
    - apply seq_sorted.
    - eapply perm_trans; [apply sorted_keys_perm | exact Hp]. }
  rewrite Hkeys in Hperm.
  assert (Hlt : (k < length a)%nat).
  { rewrite Hl. apply nth_error_Some. congruence. }
  destruct (nth_error a k) as [x |] eqn:Ex;
    [| apply nth_error_Some in Hlt; congruence].
  assert (Hin : In (Z.of_nat i, x) (combine ind a))
    by now apply (nth_error_in_combine ind a k).
  apply (Permutation_in _ (Permutation_sym Hperm)) in Hin.
  destruct (in_combine_seq N 0 i r x Hin) as (j & -> & Hj). exact Hj.
Qed.

(** [rot[np.argsort(ind)]] raises IndexError when there are fewer rotations
    than image indices. *)
Lemma take_argsort_short {A : Type} (ind : list Z) (a : list A) :
  (length a < length ind)%nat -> take a (argsort ind) = None.
Proof.
  intros Hlt. unfold take, argsort.
  assert (Hin : In (length a)
                   (map snd (sort_by_key
                               (combine ind (seq 0 (length ind)))))).
  { eapply Permutation_in.
    - apply Permutation_sym, Permutation_map, sort_by_key_perm.
    - assert (Hs : forall s, map snd (combine ind (seq s (length ind)))
                             = seq s (length ind)).
      { clear. induction ind as [| k ind IH]; intros s; cbn;
          [reflexivity | now rewrite IH]. }
      rewrite Hs. apply in_seq. lia. }
  apply (mapM_none _ _ (length a) Hin).
  apply nth_error_None. lia.
Qed.

Section SortPosesFacts.

Variables Rot Trans : Type.

(** X16: [sort_poses] of a non-empty list of batches with one rotation per
    image index returns the rotations rearranged into increasing order of
    the image index, each one still with its index; with translations (all
    batches have them, one per index) the translations are rearranged the
    same way, so that a rotation and a translation at one position belong to
    one image. *)
Theorem sort_poses_by_index (poses : list (batch_pose Rot Trans)) :
  poses <> [] ->
  length (concat (map (bp_rot Rot Trans) poses)) = length (concat (map (bp_ind Rot Trans) poses)) ->
  exists sorted_ind rot',
    Sorted Z.le sorted_ind
    /\ Permutation sorted_ind (concat (map (bp_ind Rot Trans) poses))
    /\ length rot' = length sorted_ind
    /\ Permutation (combine sorted_ind rot')
                   (combine (concat (map (bp_ind Rot Trans) poses)) (concat (map (bp_rot Rot Trans) poses)))
    /\ (forall p0 rest, poses = p0 :: rest -> bp_trans Rot Trans p0 = None ->
          sort_poses Rot Trans poses = Some (rot', None))
    /\ (forall trans,
          mapM (bp_trans Rot Trans) poses = Some trans ->
          length (concat trans) = length (concat (map (bp_ind Rot Trans) poses)) ->
          exists trans',
            sort_poses Rot Trans poses = Some (rot', Some trans')
            /\ length trans' = length sorted_ind
            /\ Permutation
                 (combine sorted_ind (combine rot' trans'))
                 (combine (concat (map (bp_ind Rot Trans) poses))
                          (combine (concat (map (bp_rot Rot Trans) poses)) (concat trans)))).
Proof.
  intros Hne Hl.
  destruct (take_argsort_rows _ _ Hl) as (rot' & Hrot & Hlen & Hperm).
  pose proof (sorted_keys_perm (concat (map (bp_ind Rot Trans) poses))) as Hkeys.
  exists (map fst (sort_by_key (combine (concat (map (bp_ind Rot Trans) poses))
                                  (seq 0 (length (concat (map (bp_ind Rot Trans) poses))))))), rot'.
  split; [apply StronglySorted_Sorted, sort_by_key_sorted |].
  split; [exact Hkeys |].
  split; [now rewrite (Permutation_length Hkeys) |].
  split; [exact Hperm |]. split.
  - intros p0 rest -> Hp0. unfold sort_poses. rewrite Hrot. cbn [bind].
    now rewrite Hp0.
  - intros trans Htrans Hlt.
    destruct (take_argsort_rows _ _ Hlt) as (trans' & Htr & Hlen' & _).
    exists trans'. split; [| split].
    + destruct poses as [| p0 rest]; [contradiction |].
      unfold sort_poses. rewrite Hrot. cbn [bind].
      apply mapM_cons_some in Htrans as Hc.
      destruct Hc as (t0 & ts & Ht0 & _ & _). rewrite Ht0, Htrans.
      cbn [bind]. rewrite Htr. reflexivity.
    + now rewrite (Permutation_length Hkeys).
    + assert (Hlc : length (combine (concat (map (bp_rot Rot Trans) poses)) (concat trans))
                    = length (concat (map (bp_ind Rot Trans) poses)))
        by (rewrite length_combine; lia).
      destruct (take_argsort_rows _ _ Hlc) as (rt & Hrt & _ & Hp).
      rewrite (take_combine _ _ _ _ _ Hrot Htr) in Hrt.
      injection Hrt as <-. exact Hp.
Qed.

(** X17: when the image indices of the batches are the indices 0 .. N-1,
    each once (one pass of the data loader), row [i] of the sorted rotations
    (and translations) is the pose of image [i]: the row that came with index
    [i] in the batches. *)
Theorem sort_poses_lookup (poses : list (batch_pose Rot Trans)) (N : nat) :
  poses <> [] ->
  length (concat (map (bp_rot Rot Trans) poses)) = length (concat (map (bp_ind Rot Trans) poses)) ->
  Permutation (concat (map (bp_ind Rot Trans) poses)) (map Z.of_nat (seq 0 N)) ->
  exists rot',
    length rot' = N
    /\ (forall k i, nth_error (concat (map (bp_ind Rot Trans) poses)) k = Some (Z.of_nat i) ->
                    nth_error rot' i = nth_error (concat (map (bp_rot Rot Trans) poses)) k)
    /\ (forall p0 rest, poses = p0 :: rest -> bp_trans Rot Trans p0 = None ->
          sort_poses Rot Trans poses = Some (rot', None))
    /\ (forall trans,
          mapM (bp_trans Rot Trans) poses = Some trans ->
          length (concat trans) = length (concat (map (bp_ind Rot Trans) poses)) ->
          exists trans',
            sort_poses Rot Trans poses = Some (rot', Some trans')
            /\ length trans' = N
            /\ forall k i,
                nth_error (concat (map (bp_ind Rot Trans) poses)) k = Some (Z.of_nat i) ->
                nth_error trans' i = nth_error (concat trans) k).
Proof.
  intros Hne Hl Hp.
  assert (HN : length (concat (map (bp_ind Rot Trans) poses)) = N)
    by now rewrite (Permutation_length Hp), length_map, length_seq.
  destruct (take_argsort_lookup _ _ N Hl Hp) as (rot' & Hrot & Hlen & Hlook).
  exists rot'. split; [congruence |]. split; [exact Hlook |]. split.
  - intros p0 rest -> Hp0. unfold sort_poses. rewrite Hrot. cbn [bind].
    now rewrite Hp0.
  - intros trans Htrans Hlt.
    destruct (take_argsort_lookup _ _ N Hlt Hp) as (trans' & Htr & Hlen' & Hlk).
    exists trans'. split; [| split; [congruence | exact Hlk]].
    destruct poses as [| p0 rest]; [contradiction |].
    unfold sort_poses. rewrite Hrot. cbn [bind].
    apply mapM_cons_some in Htrans as Hc.
    destruct Hc as (t0 & ts & Ht0 & _ & _). rewrite Ht0, Htrans.
    cbn [bind]. rewrite Htr. reflexivity.
Qed.

(** X18: [sort_poses] raises instead of returning poses when the list of
    batches is empty (np.concatenate of nothing), when there are fewer
    rotations than image indices (an index of the argsort is out of range),
    and when the first batch has translations and a later one has none. *)
Theorem sort_poses_errors (poses : list (batch_pose Rot Trans)) :
  (poses = [] -> sort_poses Rot Trans poses = None)
  /\ ((length (concat (map (bp_rot Rot Trans) poses))
       < length (concat (map (bp_ind Rot Trans) poses)))%nat ->
      sort_poses Rot Trans poses = None)
  /\ (forall p0 rest t p,
        poses = p0 :: rest -> bp_trans Rot Trans p0 = Some t ->
        In p rest -> bp_trans Rot Trans p = None ->
        sort_poses Rot Trans poses = None).
Proof.
  split; [now intros -> |]. split.
  - intros Hlt. destruct poses as [| p0 rest]; [reflexivity |].
    unfold sort_poses. now rewrite (take_argsort_short _ _ Hlt).
  - intros p0 rest t p -> Ht Hin Hp. unfold sort_poses.
    destruct (take _ _) as [rot' |]; [| reflexivity]. cbn [bind].
    rewrite Ht.
    now rewrite (mapM_none (bp_trans Rot Trans) (p0 :: rest) p
                   (or_intror Hin) Hp).
Qed.

End SortPosesFacts.

Lemma sort_poses_by_index_witness :
  exists sorted_ind rot',
    Sorted Z.le sorted_ind
    /\ Permutation sorted_ind [2; 0; 1]%Z
    /\ length rot' = length sorted_ind
    /\ Permutation (combine sorted_ind rot')
                   (combine [2; 0; 1]%Z [20; 0; 10]%Z)
    /\ (forall p0 rest,
          [mk_batch_pose Z Z [2; 0]%Z [20; 0]%Z (Some [-2; 0]%Z);
           mk_batch_pose Z Z [1]%Z [10]%Z (Some [-1]%Z)] = p0 :: rest ->
          bp_trans Z Z p0 = None ->
          sort_poses Z Z
            [mk_batch_pose Z Z [2; 0]%Z [20; 0]%Z (Some [-2; 0]%Z);
             mk_batch_pose Z Z [1]%Z [10]%Z (Some [-1]%Z)]
          = Some (rot', None))
    /\ (forall trans,
          mapM (bp_trans Z Z)
            [mk_batch_pose Z Z [2; 0]%Z [20; 0]%Z (Some [-2; 0]%Z);
             mk_batch_pose Z Z [1]%Z [10]%Z (Some [-1]%Z)] = Some trans ->
          length (concat trans) = length [2; 0; 1]%Z ->
          exists trans',
            sort_poses Z Z
              [mk_batch_pose Z Z [2; 0]%Z [20; 0]%Z (Some [-2; 0]%Z);
               mk_batch_pose Z Z [1]%Z [10]%Z (Some [-1]%Z)]
            = Some (rot', Some trans')
            /\ length trans' = length sorted_ind
            /\ Permutation
                 (combine sorted_ind (combine rot' trans'))
                 (combine [2; 0; 1]%Z
                          (combine [20; 0; 10]%Z (concat trans)))).
Proof.
  apply (sort_poses_by_index Z Z
           [mk_batch_pose Z Z [2; 0]%Z [20; 0]%Z (Some [-2; 0]%Z);
            mk_batch_pose Z Z [1]%Z [10]%Z (Some [-1]%Z)]).
  - discriminate.
  - reflexivity.
Defined.

Lemma sort_poses_lookup_witness :
  exists rot',
    length rot' = 3%nat
    /\ (forall k i, nth_error [2; 0; 1]%Z k = Some (Z.of_nat i) ->
                    nth_error rot' i = nth_error [20; 0; 10]%Z k)
    /\ (forall p0 rest,
          [mk_batch_pose Z Z [2; 0]%Z [20; 0]%Z None;
           mk_batch_pose Z Z [1]%Z [10]%Z None] = p0 :: rest ->
          bp_trans Z Z p0 = None ->
          sort_poses Z Z
            [mk_batch_pose Z Z [2; 0]%Z [20; 0]%Z None;
             mk_batch_pose Z Z [1]%Z [10]%Z None]
          = Some (rot', None))
    /\ (forall trans,
          mapM (bp_trans Z Z)
            [mk_batch_pose Z Z [2; 0]%Z [20; 0]%Z None;
             mk_batch_pose Z Z [1]%Z [10]%Z None] = Some trans ->
          length (concat trans) = length [2; 0; 1]%Z ->
          exists trans',
            sort_poses Z Z
              [mk_batch_pose Z Z [2; 0]%Z [20; 0]%Z None;
               mk_batch_pose Z Z [1]%Z [10]%Z None]
            = Some (rot', Some trans')
            /\ length trans' = 3%nat
            /\ forall k i,
                nth_error [2; 0; 1]%Z k = Some (Z.of_nat i) ->
                nth_error trans' i = nth_error (concat trans) k).
Proof.
  apply (sort_poses_lookup Z Z
           [mk_batch_pose Z Z [2; 0]%Z [20; 0]%Z None;
            mk_batch_pose Z Z [1]%Z [10]%Z None] 3).
  - discriminate.
  - reflexivity.
  - apply perm_trans with [0; 2; 1]%Z.
    + apply perm_swap.
    + apply perm_skip, perm_swap.
Defined.

End BnbHetFacts.
